(** * jrsonnet-evaluator: values, thunks, call binding, manifestation and equality

    A shallow embedding of [function.rs] and [val.rs] of
    [crates/jrsonnet-evaluator].  Rust's [Rc<RefCell<..>>] thunk cells live in
    an explicit heap threaded through a state/error monad; the parts of the
    crate that are not under [src/] (the expression evaluator, the object
    model, the JSON printer, builtins and native callbacks) are parameters of
    the section. *)

From Stdlib Require Import String Ascii List ZArith PrimFloat SpecFloat FloatOps FloatAxioms.
From stdpp Require Import base gmap strings list.

Local Open Scope string_scope.
Set Implicit Arguments.

(** Heap addresses of thunk cells ([Rc<RefCell<LazyValInternals>>]). *)
Abbreviation loc := N (only parsing).

(** [jrsonnet_types::ValType]. *)
Module ValType.
Inductive t := Bool | Null | Str | Num | Arr | Obj | Func.
Definition eqb (a b : t) : bool :=
  match a, b with
  | Bool, Bool | Null, Null | Str, Str | Num, Num
  | Arr, Arr | Obj, Obj | Func, Func => true
  | _, _ => false
  end.
End ValType.

(** Errors raised by this core ([crate::error::Error]); [Other] stands for the
    errors raised by the external collaborators. *)
Inductive Error :=
| UnknownFunctionParameter (name : string)
| TooManyArgsFunctionHas (n : nat)
| BindingParameterASecondTime (name : string)
| FunctionParameterNotBoundInCall (name : string)
| StreamManifestOutputIsNotAArray
| StreamManifestOutputCannotBeRecursed
| StreamManifestCannotNestString
| StringManifestOutputIsNotAString
| MultiManifestOutputIsNotAObject
| VariableIsNotDefined (name : string)
| RuntimeError (msg : string)
| TypeMismatch (context : string) (expected : list ValType.t) (got : ValType.t)
| Other (msg : string).

(** Outcome of a Rust computation: [Ok], [Err] (a [Result] error) or a panic. *)
Inductive res (A : Type) :=
| Ok (a : A)
| Err (e : Error)
| Panic (msg : string).
Arguments Ok {A} a.
Arguments Err {A} e.
Arguments Panic {A} msg.

Definition NO_DEFAULT_CONTEXT : string :=
  "no default context set for call with defined default parameter value".

(** [ManifestFormat]. *)
Module ManifestFormat.
Inductive t :=
| YamlStream (format : t)
| Yaml (padding : nat)
| Json (padding : nat)
| ToString
| String.
End ManifestFormat.

(** [builtin::manifest::ManifestType] and [ManifestJsonOptions]. *)
Module ManifestType.
Inductive t := Manifest | Minify | ToString | Std.
End ManifestType.

Record ManifestJsonOptions := {
  padding : string;
  mtype : ManifestType.t
}.

Section Evaluator.

(** [jrsonnet_parser::LocExpr]: expressions are opaque to this core. *)
Variable LocExpr : Type.
(** [crate::ObjValue]: the object model is external. *)
Variable ObjValue : Type.
(** The host side of a [NativeCallback]. *)
Variable NativeHandler : Type.
(** Boxed closures of thunks created outside [function.rs]. *)
Variable HostFn : Type.

(** [ParamsDesc]: parameter names with optional default expressions. *)
Definition Param : Type := string * option LocExpr.
Definition ParamsDesc : Type := list Param.
(** [ArgsDesc]: call arguments, each optionally named. *)
Definition Arg : Type := option string * LocExpr.
Definition ArgsDesc : Type := list Arg.

(** Modelled from the spec: [Context] (ctx.rs, not under src/), an
    Environment Frame: a chain of binding maps (name to thunk), newest frame
    first; extending shares the parent and never mutates it. *)
Definition Context : Type := list (gmap string loc).

Definition Context_extend (c : Context) (bindings : gmap string loc) : Context :=
  bindings :: c.

Fixpoint Context_binding (c : Context) (name : string) : res loc :=
  match c with
  | [] => Err (VariableIsNotDefined name)
  | fr :: rest =>
      match fr !! name with
      | Some l => Ok l
      | None => Context_binding rest name
      end
  end.

Record FuncDesc := {
  fd_name : string;
  fd_ctx : Context;
  fd_params : ParamsDesc;
  fd_body : LocExpr
}.

Record NativeCallback := {
  nc_params : ParamsDesc;
  nc_handler : NativeHandler
}.

Inductive FuncVal :=
| Normal (d : FuncDesc)
| Intrinsic (name : string)
| NativeExt (name : string) (handler : NativeCallback).

(** [f64] is IEEE binary64: Rocq's primitive floats. *)
Inductive Val :=
| Bool (b : bool)
| Null
| Str (s : string)
| Num (n : float)
| Arr (a : ArrValue)
| Obj (o : ObjValue)
| Func (f : FuncVal)
with ArrValue :=
| Lazy (items : list loc)
| Eager (items : list Val).

(** The boxed [dyn Fn() -> Result<Val>] of a waiting thunk. *)
Inductive LazyFn :=
| EvalIn (ctx : Context) (expr : LocExpr)   (* closure!(clone ctx, clone expr, || evaluate(ctx, &expr)) *)
| Host (f : HostFn).

Inductive LazyValInternals :=
| Computed (v : Val)
| Waiting (f : LazyFn).

Record State := {
  heap : gmap loc LazyValInternals;
  next_loc : loc
}.

(** The state/error monad. *)
Definition M (A : Type) : Type := State -> res A * State.

Definition ret {A} (a : A) : M A := fun s => (Ok a, s).
Definition throw {A} (e : Error) : M A := fun s => (Err e, s).
Definition panic {A} (msg : string) : M A := fun s => (Panic msg, s).
Definition bind {A B} (m : M A) (k : A -> M B) : M B := fun s =>
  match m s with
  | (Ok a, s') => k a s'
  | (Err e, s') => (Err e, s')
  | (Panic p, s') => (Panic p, s')
  end.
Definition lift {A} (r : res A) : M A := fun s => (r, s).

Local Notation "'let*' x ':=' m 'in' k" := (bind m (fun x => k))
  (at level 200, x name, m at level 100, k at level 200).

(** External collaborators. *)
Variable evaluate : Context -> LocExpr -> M Val.
Variable host_run : HostFn -> M Val.

Definition run_lazy_fn (f : LazyFn) : M Val :=
  match f with
  | EvalIn ctx expr => evaluate ctx expr
  | Host h => host_run h
  end.

Definition set_cell (l : loc) (c : LazyValInternals) (s : State) : State :=
  {| heap := <[l := c]> (heap s); next_loc := next_loc s |}.

(** [LazyVal::new] and [LazyVal::new_resolved]: a fresh [Rc] cell. *)
Definition alloc (c : LazyValInternals) : M loc := fun s =>
  (Ok (next_loc s), {| heap := <[next_loc s := c]> (heap s); next_loc := N.succ (next_loc s) |}).
Definition LazyVal_new (f : LazyFn) : M loc := alloc (Waiting f).
Definition LazyVal_new_resolved (v : Val) : M loc := alloc (Computed v).

(** [LazyVal::evaluate]. *)
Definition LazyVal_evaluate (l : loc) : M Val := fun s =>
  match heap s !! l with
  | Some (Computed v) => (Ok v, s)
  | Some (Waiting f) =>
      match run_lazy_fn f s with
      | (Ok v, s') => (Ok v, set_cell l (Computed v) s')
      | (Err e, s') => (Err e, s')
      | (Panic p, s') => (Panic p, s')
      end
  | None => (Panic "dangling thunk", s)
  end.


(** ** [function.rs]: [parse_function_call] *)

(** [params.iter().position(|p| *p.0 == *name)]. *)
Fixpoint position (params : ParamsDesc) (name : string) : option nat :=
  match params with
  | [] => None
  | p :: ps =>
      if String.eqb p.1 name then Some 0
      else match position ps name with Some i => Some (S i) | None => None end
  end.

Definition param_name (params : ParamsDesc) (idx : nat) : string :=
  match params !! idx with Some p => p.1 | None => "" end.

(** [let idx = if let Some(name) = &arg.0 { position .. } else { id }]. *)
Definition arg_index (params : ParamsDesc) (id : nat) (arg : Arg) : res nat :=
  match arg.1 with
  | Some name =>
      match position params name with
      | Some i => Ok i
      | None => Err (UnknownFunctionParameter name)
      end
  | None => Ok id
  end.

(** The first loop: [positioned_args[idx] = Some(arg.1.clone())]; [id] is the
    index of the argument among all arguments ([args.iter().enumerate()]). *)
Fixpoint place_args_loop (params : ParamsDesc) (id : nat) (args : ArgsDesc)
    (positioned_args : list (option LocExpr)) : res (list (option LocExpr)) :=
  match args with
  | [] => Ok positioned_args
  | arg :: rest =>
      match arg_index params id arg with
      | Ok idx =>
          if Nat.leb (List.length params) idx then Err (TooManyArgsFunctionHas (List.length params))
          else match positioned_args !! idx with
               | Some (Some _) => Err (BindingParameterASecondTime (param_name params idx))
               | _ => place_args_loop params (S id) rest (<[idx := Some arg.2]> positioned_args)
               end
      | Err e => Err e
      | Panic p => Panic p
      end
  end.

(** [let (ctx, expr) = if let Some(arg) = &positioned_args[id] { .. }]. *)
Definition param_source (ctx : Context) (body_ctx : option Context)
    (positioned_args : list (option LocExpr)) (id : nat) (p : Param)
    : res (Context * LocExpr) :=
  match mjoin (positioned_args !! id) with
  | Some arg => Ok (ctx, arg)
  | None =>
      match p.2 with
      | Some default =>
          match body_ctx with
          | Some bc => Ok (bc, default)
          | None => Panic NO_DEFAULT_CONTEXT
          end
      | None => Err (FunctionParameterNotBoundInCall p.1)
      end
  end.

(** [if tailstrict { resolved_lazy_val!(evaluate(ctx, expr)?) } else { lazy_val!(..) }]. *)
Definition bind_value (tailstrict : bool) (ce : Context * LocExpr) : M loc :=
  if tailstrict
  then let* v := evaluate ce.1 ce.2 in LazyVal_new_resolved v
  else LazyVal_new (EvalIn ce.1 ce.2).

(** The second loop ("Fill defaults"), over [params.iter().enumerate()]. *)
Fixpoint fill_defaults_loop (ctx : Context) (body_ctx : option Context)
    (tailstrict : bool) (ps : ParamsDesc) (id : nat)
    (positioned_args : list (option LocExpr)) (out : gmap string loc)
    : M (gmap string loc) :=
  match ps with
  | [] => ret out
  | p :: rest =>
      let* ce := lift (param_source ctx body_ctx positioned_args id p) in
      let* val := bind_value tailstrict ce in
      fill_defaults_loop ctx body_ctx tailstrict rest (S id) positioned_args
        (<[p.1 := val]> out)
  end.

Definition parse_function_call (ctx : Context) (body_ctx : option Context)
    (params : ParamsDesc) (args : ArgsDesc) (tailstrict : bool) : M Context :=
  let* positioned_args :=
    lift (place_args_loop params 0 args (replicate (List.length params) None)) in
  let* out := fill_defaults_loop ctx body_ctx tailstrict params 0 positioned_args ∅ in
  ret (Context_extend (default ctx body_ctx) out).

(** ** [val.rs]: [FuncVal::evaluate] *)

Variable call_builtin : Context -> string -> ArgsDesc -> M Val.
Variable native_call : NativeHandler -> list Val -> M Val.

Fixpoint force_params (args : Context) (ps : ParamsDesc) : M (list Val) :=
  match ps with
  | [] => ret []
  | p :: rest =>
      let* l := lift (Context_binding args p.1) in
      let* v := LazyVal_evaluate l in
      let* vs := force_params args rest in
      ret (v :: vs)
  end.

Definition FuncVal_evaluate (f : FuncVal) (call_ctx : Context) (args : ArgsDesc)
    (tailstrict : bool) : M Val :=
  match f with
  | Normal func =>
      let* ctx := parse_function_call call_ctx (Some (fd_ctx func)) (fd_params func)
                    args tailstrict in
      evaluate ctx (fd_body func)
  | Intrinsic name => call_builtin call_ctx name args
  | NativeExt _ handler =>
      let* args := parse_function_call call_ctx None (nc_params handler) args true in
      let* out_args := force_params args (nc_params handler) in
      native_call (nc_handler handler) out_args
  end.

(** ** [val.rs]: [ArrValue] *)

Definition ArrValue_len (a : ArrValue) : nat :=
  match a with Lazy l => List.length l | Eager e => List.length e end.

Definition ArrValue_is_empty (a : ArrValue) : bool := Nat.eqb (ArrValue_len a) 0.

Definition ArrValue_get (a : ArrValue) (index : nat) : M (option Val) :=
  match a with
  | Lazy vec =>
      match vec !! index with
      | Some v => let* x := LazyVal_evaluate v in ret (Some x)
      | None => ret None
      end
  | Eager vec => ret (vec !! index)
  end.

(** [ArrValue::evaluated]. *)
Fixpoint evaluate_all (vec : list loc) : M (list Val) :=
  match vec with
  | [] => ret []
  | item :: rest =>
      let* v := LazyVal_evaluate item in
      let* vs := evaluate_all rest in
      ret (v :: vs)
  end.

Definition ArrValue_evaluated (a : ArrValue) : M (list Val) :=
  match a with
  | Lazy vec => evaluate_all vec
  | Eager vec => ret vec
  end.

(** The item at [idx] of [ArrValue::iter]. *)
Definition ArrValue_iter_at (a : ArrValue) (idx : nat) : M Val :=
  match a with
  | Lazy l =>
      match l !! idx with Some x => LazyVal_evaluate x | None => panic "index out of bounds" end
  | Eager e =>
      match e !! idx with Some x => ret x | None => panic "index out of bounds" end
  end.

(** ** [val.rs]: manifestation *)

(** [builtin::manifest::manifest_json_ex] (external). *)
Variable manifest_json_ex : Val -> ManifestJsonOptions -> M string.
(** [Val::to_yaml]: evaluates [std.manifestYamlDoc] through the external
    evaluator and standard library. *)
Variable to_yaml : Val -> nat -> M string.

Definition Val_to_string (v : Val) : M string :=
  match v with
  | Bool true => ret "true"
  | Bool false => ret "false"
  | Null => ret "null"
  | Str s => ret s
  | v => manifest_json_ex v {| padding := ""; mtype := ManifestType.ToString |}
  end.

Fixpoint repeat_str (s : string) (n : nat) : string :=
  match n with 0 => "" | S n => String.append s (repeat_str s n) end.

Definition to_json (v : Val) (pad : nat) : M string :=
  manifest_json_ex v
    {| padding := repeat_str " " pad;
       mtype := if Nat.eqb pad 0 then ManifestType.Minify else ManifestType.Manifest |}.

Definition newline : string := String (ascii_of_nat 10) EmptyString.

(** The loop of the [YamlStream] arm:
    [for v in arr.iter() { out.push_str("---\n"); out.push_str(&v?.manifest(format)?); out.push('\n'); }]. *)
Fixpoint yaml_stream_loop (arr : ArrValue) (manifest_item : Val -> M string)
    (idxs : list nat) (out : string) : M string :=
  match idxs with
  | [] => ret out
  | i :: rest =>
      let out := String.append out ("---" ++ newline) in
      let* v := ArrValue_iter_at arr i in
      let* m := manifest_item v in
      yaml_stream_loop arr manifest_item rest (String.append out (String.append m newline))
  end.

(** [Val::manifest]. *)
Fixpoint manifest (self : Val) (ty : ManifestFormat.t) : M string :=
  match ty with
  | ManifestFormat.YamlStream format =>
      match self with
      | Arr arr =>
          let out := "" in
          match format with
          | ManifestFormat.YamlStream _ => throw StreamManifestOutputCannotBeRecursed
          | ManifestFormat.String => throw StreamManifestCannotNestString
          | _ =>
              if negb (ArrValue_is_empty arr) then
                let* out := yaml_stream_loop arr (fun v => manifest v format)
                              (seq 0 (ArrValue_len arr)) out in
                ret (String.append out "...")
              else ret out
          end
      | _ => throw StreamManifestOutputIsNotAArray
      end
  | ManifestFormat.Yaml pad => to_yaml self pad
  | ManifestFormat.Json pad => to_json self pad
  | ManifestFormat.ToString => Val_to_string self
  | ManifestFormat.String =>
      match self with
      | Str s => ret s
      | _ => throw StringManifestOutputIsNotAString
      end
  end.

(** ** [val.rs]: equality *)

(** External object model: [ObjValue::visible_fields] and [ObjValue::get]. *)
Variable visible_fields : ObjValue -> list string.
Variable obj_get : ObjValue -> string -> M (option Val).

Definition value_type (v : Val) : ValType.t :=
  match v with
  | Str _ => ValType.Str
  | Num _ => ValType.Num
  | Arr _ => ValType.Arr
  | Obj _ => ValType.Obj
  | Bool _ => ValType.Bool
  | Null => ValType.Null
  | Func _ => ValType.Func
  end.

Definition is_function_like (v : Val) : bool :=
  match v with Func _ => true | _ => false end.

(** [f64::EPSILON] = 2^-52. *)
Definition f64_EPSILON : float := 0x1p-52%float.

(** [primitive_equals]. *)
Definition primitive_equals (val_a val_b : Val) : res bool :=
  match val_a, val_b with
  | Bool a, Bool b => Ok (Bool.eqb a b)
  | Null, Null => Ok true
  | Str a, Str b => Ok (String.eqb a b)
  | Num a, Num b => Ok (PrimFloat.leb (PrimFloat.abs (PrimFloat.sub a b)) f64_EPSILON)
  | Arr _, Arr _ =>
      Err (RuntimeError "primitiveEquals operates on primitive types, got array")
  | Obj _, Obj _ =>
      Err (RuntimeError "primitiveEquals operates on primitive types, got object")
  | a, b =>
      if is_function_like a && is_function_like b
      then Err (RuntimeError "cannot test equality of functions")
      else Ok false
  end.

Definition unwrap {A} (o : option A) : M A :=
  match o with
  | Some a => ret a
  | None => panic "called `Option::unwrap()` on a `None` value"
  end.

(** The array loop of [equals]:
    [for (a, b) in a.iter().zip(b.iter()) { if !equals(&a?, &b?)? { return Ok(false) } }];
    [zip] pulls [a]'s item, then [b]'s, before either is unwrapped. *)
Fixpoint equals_arr_loop (a b : ArrValue) (eq : Val -> Val -> M bool)
    (idxs : list nat) : M bool :=
  match idxs with
  | [] => ret true
  | i :: rest => fun s =>
      let (ra, s1) := ArrValue_iter_at a i s in
      let (rb, s2) := ArrValue_iter_at b i s1 in
      (let* x := lift ra in
       let* y := lift rb in
       let* r := eq x y in
       if negb r then ret false else equals_arr_loop a b eq rest) s2
  end.

(** The object loop of [equals]:
    [for field in fields { if !equals(&a.get(field)?.unwrap(), &b.get(field)?.unwrap())? { .. } }]. *)
Fixpoint equals_obj_loop (a b : ObjValue) (eq : Val -> Val -> M bool)
    (fields : list string) : M bool :=
  match fields with
  | [] => ret true
  | field :: rest =>
      let* oa := obj_get a field in
      let* x := unwrap oa in
      let* ob := obj_get b field in
      let* y := unwrap ob in
      let* r := eq x y in
      if negb r then ret false else equals_obj_loop a b eq rest
  end.

(** [equals].  The Rust function recurses without bound; [fuel] is the depth
    of the native stack, and running out of it is the stack overflow. *)
Fixpoint equals (fuel : nat) (val_a val_b : Val) : M bool :=
  match fuel with
  | 0 => panic "stack overflow"
  | S fuel =>
      if negb (ValType.eqb (value_type val_a) (value_type val_b)) then ret false
      else
        match val_a, val_b with
        | Arr a, Arr b =>
            if negb (Nat.eqb (ArrValue_len a) (ArrValue_len b)) then ret false
            else equals_arr_loop a b (equals fuel) (seq 0 (ArrValue_len a))
        | Obj a, Obj b =>
            let fields := visible_fields a in
            if negb (bool_decide (fields = visible_fields b)) then ret false
            else equals_obj_loop a b (equals fuel) fields
        | a, b => lift (primitive_equals a b)
        end
  end.

(** ** [function.rs]: [parse_function_call_map] *)

(** The boxed closure of a deferred default in [parse_function_call_map]:
    [move || evaluate(body_ctx.clone().expect(NO_DEFAULT_CONTEXT), &default)]. *)
Variable default_closure : option Context -> LocExpr -> HostFn.

(** The first loop, over the [HashMap] of named values in its iteration order. *)
Fixpoint place_map_loop (params : ParamsDesc) (args : list (string * Val))
    (positioned_args : list (option Val)) : res (list (option Val)) :=
  match args with
  | [] => Ok positioned_args
  | (name, val) :: rest =>
      match position params name with
      | None => Err (UnknownFunctionParameter name)
      | Some idx =>
          if Nat.leb (List.length params) idx then Err (TooManyArgsFunctionHas (List.length params))
          else match positioned_args !! idx with
               | Some (Some _) => Err (BindingParameterASecondTime (param_name params idx))
               | _ => place_map_loop params rest (<[idx := Some val]> positioned_args)
               end
      end
  end.

(** The thunk of one parameter in the second loop; [positioned_args[id].take()]
    empties a slot no later iteration reads, so the slots are left as they are. *)
Definition map_param_value (body_ctx : option Context) (tailstrict : bool)
    (positioned_args : list (option Val)) (id : nat) (p : Param) : M loc :=
  match mjoin (positioned_args !! id) with
  | Some arg => LazyVal_new_resolved arg
  | None =>
      match p.2 with
      | Some default =>
          if tailstrict then
            match body_ctx with
            | Some bc => let* v := evaluate bc default in LazyVal_new_resolved v
            | None => panic NO_DEFAULT_CONTEXT
            end
          else LazyVal_new (Host (default_closure body_ctx default))
      | None => throw (FunctionParameterNotBoundInCall p.1)
      end
  end.

Fixpoint fill_map_loop (body_ctx : option Context) (tailstrict : bool) (ps : ParamsDesc)
    (id : nat) (positioned_args : list (option Val)) (out : gmap string loc)
    : M (gmap string loc) :=
  match ps with
  | [] => ret out
  | p :: rest =>
      let* val := map_param_value body_ctx tailstrict positioned_args id p in
      fill_map_loop body_ctx tailstrict rest (S id) positioned_args (<[p.1 := val]> out)
  end.

Definition parse_function_call_map (ctx : Context) (body_ctx : option Context)
    (params : ParamsDesc) (args : list (string * Val)) (tailstrict : bool) : M Context :=
  let* positioned_args :=
    lift (place_map_loop params args (replicate (List.length params) None)) in
  let* out := fill_map_loop body_ctx tailstrict params 0 positioned_args ∅ in
  ret (Context_extend (default ctx body_ctx) out).

(** ** [function.rs]: [place_args] *)

Fixpoint place_values_loop (params : ParamsDesc) (id : nat) (args : list Val)
    (positioned_args : list (option Val)) : res (list (option Val)) :=
  match args with
  | [] => Ok positioned_args
  | arg :: rest =>
      if Nat.leb (List.length params) id then Err (TooManyArgsFunctionHas (List.length params))
      else place_values_loop params (S id) rest (<[id := Some arg]> positioned_args)
  end.

Fixpoint place_values_fill (ctx : Context) (ps : ParamsDesc) (id : nat)
    (positioned_args : list (option Val)) (out : gmap string loc) : M (gmap string loc) :=
  match ps with
  | [] => ret out
  | p :: rest =>
      let* val :=
        match mjoin (positioned_args !! id) with
        | Some arg => ret arg
        | None =>
            match p.2 with
            | Some default => evaluate ctx default
            | None => throw (FunctionParameterNotBoundInCall p.1)
            end
        end in
      let* l := LazyVal_new_resolved val in
      place_values_fill ctx rest (S id) positioned_args (<[p.1 := l]> out)
  end.

Definition place_args (ctx : Context) (body_ctx : option Context) (params : ParamsDesc)
    (args : list Val) : M Context :=
  let* positioned_args :=
    lift (place_values_loop params 0 args (replicate (List.length params) None)) in
  let* out := place_values_fill ctx params 0 positioned_args ∅ in
  ret (Context_extend (default ctx body_ctx) out).

(** ** [val.rs]: [FuncVal::evaluate_map] and [FuncVal::evaluate_values] *)

(** [todo!()]. *)
Definition todo {A} : M A := panic "not yet implemented".

Definition FuncVal_evaluate_map (f : FuncVal) (call_ctx : Context)
    (args : list (string * Val)) (tailstrict : bool) : M Val :=
  match f with
  | Normal func =>
      let* ctx := parse_function_call_map call_ctx (Some (fd_ctx func)) (fd_params func)
                    args tailstrict in
      evaluate ctx (fd_body func)
  | Intrinsic _ => todo
  | NativeExt _ _ => todo
  end.

Definition FuncVal_evaluate_values (f : FuncVal) (call_ctx : Context) (args : list Val) : M Val :=
  match f with
  | Normal func =>
      let* ctx := place_args call_ctx (Some (fd_ctx func)) (fd_params func) args in
      evaluate ctx (fd_body func)
  | Intrinsic _ => todo
  | NativeExt _ _ => todo
  end.

(** ** [val.rs]: more of [ArrValue] *)

Definition ArrValue_get_lazy (a : ArrValue) (index : nat) : M (option loc) :=
  match a with
  | Lazy vec => ret (vec !! index)
  | Eager vec =>
      match vec !! index with
      | Some val => let* l := LazyVal_new_resolved val in ret (Some l)
      | None => ret None
      end
  end.

Definition ArrValue_reversed (a : ArrValue) : ArrValue :=
  match a with
  | Lazy vec => Lazy (reverse vec)
  | Eager vec => Eager (reverse vec)
  end.

(** ** [val.rs]: more of [Val] *)

Definition Val_new_checked_num (num : float) : res Val :=
  if PrimFloat.is_finite num then Ok (Num num) else Err (RuntimeError "overflow").

Definition assert_type (v : Val) (context : string) (val_type : ValType.t) : res unit :=
  let this_type := value_type v in
  if negb (ValType.eqb this_type val_type)
  then Err (TypeMismatch context [val_type] this_type)
  else Ok tt.

(** [matches_unwrap!]: [panic!("no match")] off the pattern. *)
Definition unwrap_num (v : Val) : res float :=
  match v with Num n => Ok n | _ => Panic "no match" end.

Definition try_cast_bool (v : Val) (context : string) : res bool :=
  match assert_type v context ValType.Bool with
  | Ok _ => match v with Bool b => Ok b | _ => Panic "no match" end
  | Err e => Err e
  | Panic p => Panic p
  end.

Definition try_cast_str (v : Val) (context : string) : res string :=
  match assert_type v context ValType.Str with
  | Ok _ => match v with Str s => Ok s | _ => Panic "no match" end
  | Err e => Err e
  | Panic p => Panic p
  end.

Definition try_cast_num (v : Val) (context : string) : res float :=
  match assert_type v context ValType.Num with
  | Ok _ => unwrap_num v
  | Err e => Err e
  | Panic p => Panic p
  end.

(** [Option::expect]. *)
Definition expect {A} (o : option A) (msg : string) : M A :=
  match o with Some a => ret a | None => panic msg end.

(** The loop of [Val::manifest_stream]. *)
Fixpoint manifest_stream_loop (arr : ArrValue) (ty : ManifestFormat.t) (idxs : list nat)
    : M (list string) :=
  match idxs with
  | [] => ret []
  | i :: rest =>
      let* v := ArrValue_iter_at arr i in
      let* m := manifest v ty in
      let* ms := manifest_stream_loop arr ty rest in
      ret (m :: ms)
  end.

Definition Val_manifest_stream (self : Val) (ty : ManifestFormat.t) : M (list string) :=
  match self with
  | Arr arr => manifest_stream_loop arr ty (seq 0 (ArrValue_len arr))
  | _ => throw StreamManifestOutputIsNotAArray
  end.

(** The loop of [Val::manifest_multi]. *)
Fixpoint manifest_multi_loop (obj : ObjValue) (ty : ManifestFormat.t) (keys : list string)
    : M (list (string * string)) :=
  match keys with
  | [] => ret []
  | key :: rest =>
      let* ov := obj_get obj key in
      let* v := expect ov "item in object" in
      let* value := manifest v ty in
      let* out := manifest_multi_loop obj ty rest in
      ret ((key, value) :: out)
  end.

Definition Val_manifest_multi (self : Val) (ty : ManifestFormat.t) : M (list (string * string)) :=
  match self with
  | Obj obj => manifest_multi_loop obj ty (visible_fields obj)
  | _ => throw MultiManifestOutputIsNotAObject
  end.

End Evaluator.

Arguments Bool {LocExpr ObjValue NativeHandler} b.
Arguments Null {LocExpr ObjValue NativeHandler}.
Arguments Str {LocExpr ObjValue NativeHandler} s.
Arguments Num {LocExpr ObjValue NativeHandler} n.
Arguments Arr {LocExpr ObjValue NativeHandler} a.
Arguments Obj {LocExpr ObjValue NativeHandler} o.
Arguments Func {LocExpr ObjValue NativeHandler} f.
Arguments Lazy {LocExpr ObjValue NativeHandler} items.
Arguments Eager {LocExpr ObjValue NativeHandler} items.
Arguments Computed {LocExpr ObjValue NativeHandler HostFn} v.
Arguments Waiting {LocExpr ObjValue NativeHandler HostFn} f.
Arguments EvalIn {LocExpr HostFn} ctx expr.
Arguments Host {LocExpr HostFn} f.
Arguments Normal {LocExpr NativeHandler} d.
Arguments Intrinsic {LocExpr NativeHandler} name.
Arguments NativeExt {LocExpr NativeHandler} name handler.

(** ** Properties *)

(** ** A concrete evaluator

    Expressions are numbers: [0] fails to evaluate, any other evaluates to the
    string ["v"]; the host, the builtins, the native handlers and the object
    model are trivial and leave the state as it is. *)
Module Sample.

Definition sample_evaluate (c : Context) (e : nat) : M nat unit unit unit (Val nat unit unit) :=
  fun s => match e with
           | 0 => (Err (VariableIsNotDefined "x"), s)
           | S _ => (Ok (Str "v"), s)
           end.

Definition sample_host_run (h : unit) : M nat unit unit unit (Val nat unit unit) :=
  fun s => (Ok Null, s).

Definition sample_call_builtin (c : Context) (name : string) (args : ArgsDesc nat)
    : M nat unit unit unit (Val nat unit unit) :=
  fun s => (Ok Null, s).

Definition sample_native_call (h : unit) (args : list (Val nat unit unit))
    : M nat unit unit unit (Val nat unit unit) :=
  fun s => (Ok Null, s).

Definition sample_manifest_json_ex (v : Val nat unit unit) (o : ManifestJsonOptions)
    : M nat unit unit unit string :=
  fun s => (Ok "null", s).

Definition sample_to_yaml (v : Val nat unit unit) (pad : nat) : M nat unit unit unit string :=
  fun s => (Ok "null", s).

(** The one object has the one visible field [k], holding [null]. *)
Definition sample_visible_fields (o : unit) : list string := ["k"].

Definition sample_obj_get (o : unit) (field : string)
    : M nat unit unit unit (option (Val nat unit unit)) :=
  fun s => (Ok (Some Null), s).

Definition s0 : State nat unit unit unit := {| heap := ∅; next_loc := 0 |}.

(** One thunk, at [0], waiting to evaluate [1] in the empty context. *)
Definition s_thunk : State nat unit unit unit :=
  {| heap := {[ 0%N := Waiting (EvalIn [] 1) ]}; next_loc := 1 |}.

(** [function(a, b=2)]. *)
Definition params_ab : ParamsDesc nat := [("a", None); ("b", Some 2)].
(** [function(a=2)]. *)
Definition params_a_default : ParamsDesc nat := [("a", Some 2)].
(** One positional argument, the expression [3]. *)
Definition args_3 : ArgsDesc nat := [(None, 3)].

(** Two positional arguments, the expressions [3] and [1]. *)
Definition args_two : ArgsDesc nat := [(None, 3); (None, 1)].
(** One positional value, [null]. *)
Definition vals_null : list (Val nat unit unit) := [Null].
(** Named values [{a: null}], [{b: null}] and [{c: null}]. *)
Definition named_a : list (string * Val nat unit unit) := [("a", Null)].
Definition named_b : list (string * Val nat unit unit) := [("b", Null)].
Definition named_c : list (string * Val nat unit unit) := [("c", Null)].
(** A native extension with the parameters of [params_ab]. *)
Definition handler_ab : NativeCallback nat unit := {| nc_params := params_ab; nc_handler := tt |}.

End Sample.

(** A second instance, whose host thunks are the closures of
    [parse_function_call_map] for defaults: an optional callee environment
    and the default expression. *)
Module Sample2.
Import Sample.

Definition HostFn2 : Type := option Context * nat.

Definition sample2_evaluate (c : Context) (e : nat) : M nat unit unit HostFn2 (Val nat unit unit) :=
  fun s => match e with
           | 0 => (Err (VariableIsNotDefined "x"), s)
           | S _ => (Ok (Str "v"), s)
           end.

Definition sample2_host_run (h : HostFn2) : M nat unit unit HostFn2 (Val nat unit unit) :=
  match h.1 with
  | Some c => sample2_evaluate c h.2
  | None => panic NO_DEFAULT_CONTEXT
  end.

Definition sample2_default_closure (bc : option Context) (d : nat) : HostFn2 := (bc, d).

Definition s2_0 : State nat unit unit HostFn2 := {| heap := ∅; next_loc := 0 |}.

End Sample2.

Section Properties.
Local Open Scope list_scope.
Unset Implicit Arguments.

Variables (LocExpr ObjValue NativeHandler HostFn : Type).
Local Abbreviation Val := (Val LocExpr ObjValue NativeHandler).
Local Abbreviation State := (State LocExpr ObjValue NativeHandler HostFn).
Local Abbreviation M := (M LocExpr ObjValue NativeHandler HostFn).
Local Abbreviation ParamsDesc := (ParamsDesc LocExpr).
Local Abbreviation ArgsDesc := (ArgsDesc LocExpr).

Variable evaluate : Context -> LocExpr -> M Val.
Variable host_run : HostFn -> M Val.
Variable call_builtin : Context -> string -> ArgsDesc -> M Val.
Variable native_call : NativeHandler -> list Val -> M Val.

Local Abbreviation force := (LazyVal_evaluate evaluate host_run).
Local Abbreviation run := (run_lazy_fn evaluate host_run).
Local Abbreviation bind_call := (parse_function_call evaluate).
Local Abbreviation fill := (fill_defaults_loop evaluate).

(** Cells only ever go from waiting to computed: a computed cell is never
    overwritten (the [RefCell] of a thunk is written only by its own
    [evaluate], and only while it is waiting), and allocation only moves
    forward. *)
Definition keeps_computed (s s' : State) : Prop :=
  forall l v, heap s !! l = Some (Computed v) -> heap s' !! l = Some (Computed v).

Hypothesis evaluate_evolves : forall c e s r s',
  evaluate c e s = (r, s') -> keeps_computed s s' /\ N.le (next_loc s) (next_loc s').

(** What the binder leaves behind, between two states, for the cells that
    existed before: under tail-strict binding only computed cells are sure to
    be kept (the evaluator runs in between); otherwise every cell is. *)
Definition stable (ts : bool) (s s' : State) : Prop :=
  N.le (next_loc s) (next_loc s') /\
  forall l c, N.lt l (next_loc s) -> heap s !! l = Some c ->
    (ts = false \/ exists v, c = Computed v) -> heap s' !! l = Some c.

(** The thunk bound for a value taken from [ce]: computed from evaluating
    [ce.2] in [ce.1] under tail-strict binding, else waiting to do so. *)
Definition bound_cell (ts : bool) (ce : Context * LocExpr) (l : loc) (s : State) : Prop :=
  if ts
  then exists v s1 s2, evaluate ce.1 ce.2 s1 = (Ok v, s2) /\ heap s !! l = Some (Computed v)
  else heap s !! l = Some (Waiting (EvalIn ce.1 ce.2)).

Definition cell_kind (ts : bool) (c : option (LazyValInternals LocExpr ObjValue NativeHandler HostFn)) : Prop :=
  if ts then exists v, c = Some (Computed v) else exists f, c = Some (Waiting f).

Variable manifest_json_ex : Val -> ManifestJsonOptions -> M string.
Variable to_yaml : Val -> nat -> M string.
Variable visible_fields : ObjValue -> list string.
Variable obj_get : ObjValue -> string -> M (option Val).

Local Abbreviation ArrValue := (ArrValue LocExpr ObjValue NativeHandler).
Local Abbreviation manifest_ := (manifest evaluate host_run manifest_json_ex to_yaml).
Local Abbreviation equals_ := (equals evaluate host_run visible_fields obj_get).
Local Abbreviation iter_at := (ArrValue_iter_at evaluate host_run).
Local Abbreviation get := (ArrValue_get evaluate host_run).
Local Abbreviation evaluated := (ArrValue_evaluated evaluate host_run).

(** Host-side thunk computations obey the same discipline as [evaluate]. *)
Hypothesis host_run_evolves : forall h s r s',
  host_run h s = (r, s') -> keeps_computed s s' /\ N.le (next_loc s) (next_loc s').

(** The formats a [YamlStream] may nest. *)
Definition nests_in_stream (f : ManifestFormat.t) : bool :=
  match f with
  | ManifestFormat.YamlStream _ | ManifestFormat.String => false
  | _ => true
  end.

(** The documents of a YAML stream, each behind a [---] marker line. *)
Fixpoint yaml_docs (ms : list string) : string :=
  match ms with
  | [] => ""
  | m :: ms =>
      String.append ("---" ++ newline) (String.append (String.append m newline) (yaml_docs ms))
  end.

(** A YAML stream: its documents and the [...] terminator, nothing at all for
    no document. *)
Definition yaml_stream_text (ms : list string) : string :=
  match ms with
  | [] => ""
  | _ => String.append (yaml_docs ms) "..."
  end.

(** [stream_docs a f idxs s ms s']: from [s], the items of [a] at [idxs],
    each forced and then manifested under [f] in turn, give the documents
    [ms] and leave [s']. *)
Inductive stream_docs (a : ArrValue) (f : ManifestFormat.t) :
    list nat -> State -> list string -> State -> Prop :=
| stream_docs_nil s : stream_docs a f [] s [] s
| stream_docs_cons i idxs s v s1 m s2 ms s3 :
    iter_at a i s = (Ok v, s1) ->
    manifest_ v f s1 = (Ok m, s2) ->
    stream_docs a f idxs s2 ms s3 ->
    stream_docs a f (i :: idxs) s (m :: ms) s3.

(** [chain P xs s s']: from [s], the steps [P x] for the items [x] of [xs],
    taken one after the other, lead to [s']. *)
Inductive chain {A : Type} (P : A -> State -> State -> Prop) : list A -> State -> State -> Prop :=
| chain_nil s : chain P [] s s
| chain_cons x xs s s1 s2 : P x s s1 -> chain P xs s1 s2 -> chain P (x :: xs) s s2.

(** [settles n v s s']: [v] holds no function and no NaN or infinite number,
    it is nested at most [n] deep, and going through it as [equals] does
    leads from [s] to [s']: the thunks of a lazy array, forced in their order
    (each computed or run to its value, then cached), give values that do so
    in turn, and every visible field of an object, got twice in a row (an
    object caches its fields), gives the same value both times, which does
    so in turn. *)
#[local] Set Warnings "-register-all".
Inductive settles : nat -> Val -> State -> State -> Prop :=
| settles_bool n b s : settles n (Bool b) s s
| settles_null n s : settles n Null s s
| settles_str n x s : settles n (Str x) s s
| settles_num n x s : PrimFloat.is_finite x = true -> settles n (Num x) s s
| settles_eager n vs s s' : chain (settles n) vs s s' -> settles (S n) (Arr (Eager vs)) s s'
| settles_lazy n ls s s' :
    chain (fun l s s2 => exists v s1, force l s = (Ok v, s1) /\ settles n v s1 s2) ls s s' ->
    settles (S n) (Arr (Lazy ls)) s s'
| settles_obj n o s s' :
    chain (fun f s s3 => exists v s1 s2, obj_get o f s = (Ok (Some v), s1) /\
             obj_get o f s1 = (Ok (Some v), s2) /\ settles n v s2 s3)
      (visible_fields o) s s' ->
    settles (S n) (Obj o) s s'.

(** The thunk at [l] gives [v] when forced in [s]: it is computed to [v], or
    it is waiting on a computation that succeeds with [v]. *)
Definition forces_to (s : State) (l : loc) (v : Val) : Prop :=
  heap s !! l = Some (Computed v) \/
  exists f s1, heap s !! l = Some (Waiting f) /\ run f s = (Ok v, s1).

(** The closure [parse_function_call_map] puts in the thunk of a default
    under non-tail-strict binding,
    [move || evaluate(body_ctx.clone().expect(NO_DEFAULT_CONTEXT), &default)]. *)
Variable default_closure : option Context -> LocExpr -> HostFn.
Hypothesis default_closure_run : forall bc d,
  host_run (default_closure bc d)
  = match bc with Some c => evaluate c d | None => panic NO_DEFAULT_CONTEXT end.

(** [args.get(name)] on the named values of [evaluate_map], listed in the
    iteration order of their [HashMap]. *)
Fixpoint arg_lookup (args : list (string * Val)) (name : string) : option Val :=
  match args with
  | [] => None
  | (n, v) :: rest => if String.eqb n name then Some v else arg_lookup rest name
  end.

(** The thunk [parse_function_call_map] binds for parameter [p], given the
    named value [a] for it, if any: computed to that value; else computed to
    a value of its default evaluated in the callee environment under
    tail-strict binding, or waiting on [default_closure] otherwise. *)
Definition map_bound (bc : option Context) (ts : bool) (a : option Val)
    (p : Param LocExpr) (l : loc) (s : State) : Prop :=
  match a with
  | Some v => heap s !! l = Some (Computed v)
  | None =>
      exists d, p.2 = Some d /\
        if ts then exists c v s1 s2, bc = Some c /\ evaluate c d s1 = (Ok v, s2) /\
                                    heap s !! l = Some (Computed v)
        else heap s !! l = Some (Waiting (Host (default_closure bc d)))
  end.

Lemma length_take_lookup {A} (l : list A) k x :
  l !! k = Some x -> List.length (take k l) = k.
Proof. intros H. apply lookup_lt_Some in H. rewrite length_take. lia. Qed.

Lemma bind_ok {A B} (m : M A) (k : A -> M B) s a s' :
  m s = (Ok a, s') -> bind m k s = k a s'.
Proof. unfold bind. intros ->. reflexivity. Qed.

(** *** Thunks *)

(** C3: a waiting thunk runs its computation on the first request; a success
    is cached and every later request returns it without running anything; a
    failure propagates, nothing is written, and the thunk (left alone by its
    own computation, as the [RefCell] borrow guarantees) stays waiting, so a
    later request runs the computation again. *)
Theorem LazyVal_evaluate_memo (l : loc) (f : LazyFn LocExpr HostFn) (s : State) :
  heap s !! l = Some (Waiting f) ->
  (forall v s1, run f s = (Ok v, s1) ->
     force l s = (Ok v, set_cell l (Computed v) s1) /\
     heap (set_cell l (Computed v) s1) !! l = Some (Computed v) /\
     forall s2, heap s2 !! l = Some (Computed v) -> force l s2 = (Ok v, s2)) /\
  (forall e s1, run f s = (Err e, s1) ->
     force l s = (Err e, s1) /\
     (heap s1 !! l = heap s !! l ->
        heap s1 !! l = Some (Waiting f) /\
        force l s1 =
          match run f s1 with
          | (Ok v, s2) => (Ok v, set_cell l (Computed v) s2)
          | (Err e, s2) => (Err e, s2)
          | (Panic p, s2) => (Panic p, s2)
          end)).
Proof.
  intros Hl. split.
  - intros v s1 Hrun. unfold LazyVal_evaluate. rewrite Hl, Hrun.
    split; [reflexivity|]. split.
    + unfold set_cell; simpl. apply lookup_insert_eq.
    + intros s2 H2. rewrite H2. reflexivity.
  - intros e s1 Hrun. unfold LazyVal_evaluate. rewrite Hl, Hrun.
    split; [reflexivity|]. intros Hsame.
    assert (H1 : heap s1 !! l = Some (Waiting f)) by congruence.
    split; [exact H1|]. rewrite H1. reflexivity.
Qed.

(** *** Argument placement *)

Lemma place_args_loop_app (params : ParamsDesc) id (l1 l2 : ArgsDesc) pa :
  place_args_loop params id (l1 ++ l2) pa =
  match place_args_loop params id l1 pa with
  | Ok pos => place_args_loop params (id + List.length l1) l2 pos
  | Err e => Err e
  | Panic p => Panic p
  end.
Proof.
  revert id pa. induction l1 as [|a l1 IH]; intros id pa; simpl.
  - rewrite Nat.add_0_r. reflexivity.
  - destruct (arg_index params id a) as [idx|e|p]; [|reflexivity|reflexivity].
    destruct (Nat.leb (List.length params) idx); [reflexivity|].
    destruct (pa !! idx) as [[x|]|].
    + reflexivity.
    + rewrite IH. rewrite Nat.add_succ_r. reflexivity.
    + rewrite IH. rewrite Nat.add_succ_r. reflexivity.
Qed.

Lemma place_args_loop_length (params : ParamsDesc) id (args : ArgsDesc) pa pos :
  place_args_loop params id args pa = Ok pos -> List.length pos = List.length pa.
Proof.
  revert id pa. induction args as [|a args IH]; intros id pa; simpl.
  - intros H. injection H as <-. reflexivity.
  - destruct (arg_index params id a) as [idx|e|p]; try discriminate.
    destruct (Nat.leb (List.length params) idx); [discriminate|].
    destruct (pa !! idx) as [[x|]|]; [discriminate| |];
      intros H; rewrite (IH _ _ H); apply length_insert.
Qed.

Lemma fill_defaults_loop_app ctx body_ctx ts (ps1 ps2 : ParamsDesc) id pa out s :
  fill ctx body_ctx ts (ps1 ++ ps2) id pa out s =
  match fill ctx body_ctx ts ps1 id pa out s with
  | (Ok o, s1) => fill ctx body_ctx ts ps2 (id + List.length ps1) pa o s1
  | (Err e, s1) => (Err e, s1)
  | (Panic p, s1) => (Panic p, s1)
  end.
Proof.
  revert id out s. induction ps1 as [|p ps1 IH]; intros id out s; simpl.
  - rewrite Nat.add_0_r. reflexivity.
  - unfold bind, lift. destruct (param_source ctx body_ctx pa id p) as [ce|e|q];
      [|reflexivity|reflexivity].
    destruct (bind_value evaluate ts ce s) as [[val|e|q] s1]; [|reflexivity|reflexivity].
    rewrite IH. rewrite Nat.add_succ_r. reflexivity.
Qed.

(** C1: processing the arguments in order, the first one whose name matches
    no parameter fails with [UnknownFunctionParameter], the first one whose
    index is past the parameters fails with [TooManyArgsFunctionHas], the
    first one whose slot a previous argument filled fails with
    [BindingParameterASecondTime]; once all arguments are placed, the first
    parameter reached with neither a placed argument nor a default fails with
    [FunctionParameterNotBoundInCall]. *)
Theorem parse_function_call_errors ctx body_ctx (params : ParamsDesc)
    (args : ArgsDesc) tailstrict (s : State) :
  (forall k arg pos,
     args !! k = Some arg ->
     place_args_loop params 0 (take k args) (replicate (List.length params) None) = Ok pos ->
     (forall name, arg.1 = Some name -> position params name = None ->
        bind_call ctx body_ctx params args tailstrict s
        = (Err (UnknownFunctionParameter name), s)) /\
     (forall idx, arg_index params k arg = Ok idx -> List.length params <= idx ->
        bind_call ctx body_ctx params args tailstrict s
        = (Err (TooManyArgsFunctionHas (List.length params)), s)) /\
     (forall idx e, arg_index params k arg = Ok idx -> pos !! idx = Some (Some e) ->
        bind_call ctx body_ctx params args tailstrict s
        = (Err (BindingParameterASecondTime (param_name params idx)), s))) /\
  (forall pos i p out s',
     place_args_loop params 0 args (replicate (List.length params) None) = Ok pos ->
     params !! i = Some p -> pos !! i = Some None -> p.2 = None ->
     fill ctx body_ctx tailstrict (take i params) 0 pos ∅ s = (Ok out, s') ->
     bind_call ctx body_ctx params args tailstrict s
     = (Err (FunctionParameterNotBoundInCall p.1), s')).
Proof.
  split.
  - intros k arg pos Hk Hpre.
    assert (Hargs : args = take k args ++ arg :: drop (S k) args)
      by (symmetry; apply take_drop_middle; exact Hk).
    assert (Hlen : List.length (take k args) = k)
      by (eapply length_take_lookup; exact Hk).
    assert (Hplace : forall r,
      place_args_loop params 0 args (replicate (List.length params) None) = r ->
      bind_call ctx body_ctx params args tailstrict s =
      match r with
      | Ok pos =>
          let (r', s') := fill ctx body_ctx tailstrict params 0 pos ∅ s in
          match r' with
          | Ok out => (Ok (Context_extend (default ctx body_ctx) out), s')
          | Err e => (Err e, s')
          | Panic p => (Panic p, s')
          end
      | Err e => (Err e, s)
      | Panic p => (Panic p, s)
      end).
    { intros r Hr. unfold parse_function_call, bind, lift. rewrite Hr.
      destruct r; [|reflexivity|reflexivity].
      destruct (fill _ _ _ _ _ _ _ _) as [[o|e|q] s1]; reflexivity. }
    assert (Hsplit : place_args_loop params 0 args (replicate (List.length params) None)
                     = place_args_loop params k (arg :: drop (S k) args) pos).
    { rewrite Hargs at 1. rewrite place_args_loop_app, Hpre, Hlen. reflexivity. }
    rewrite (Hplace _ Hsplit). simpl.
    split; [|split].
    + intros name Hname Hpos.
      unfold arg_index. rewrite Hname, Hpos. reflexivity.
    + intros idx Hidx Hge. rewrite Hidx.
      apply Nat.leb_le in Hge. rewrite Hge. reflexivity.
    + intros idx e Hidx Hpos. rewrite Hidx.
      assert (Hlt : idx < List.length params).
      { apply lookup_lt_Some in Hpos.
        rewrite (place_args_loop_length _ _ _ _ _ Hpre), length_replicate in Hpos. exact Hpos. }
      apply Nat.leb_gt in Hlt. rewrite Hlt, Hpos. reflexivity.
  - intros pos i p out s' Hpl Hp Hpos Hdef Hfill.
    unfold parse_function_call, bind, lift. rewrite Hpl.
    assert (Hps : params = take i params ++ p :: drop (S i) params)
      by (symmetry; apply take_drop_middle; exact Hp).
    assert (Hlen : List.length (take i params) = i)
      by (eapply length_take_lookup; exact Hp).
    assert (Hf : fill ctx body_ctx tailstrict params 0 pos ∅ s
                 = (Err (FunctionParameterNotBoundInCall p.1), s')).
    { rewrite Hps at 1. rewrite fill_defaults_loop_app, Hfill, Hlen. simpl.
      unfold bind, lift, param_source. rewrite Hpos, Hdef. reflexivity. }
    rewrite Hf. reflexivity.
Qed.

(** *** The values bound by the binder *)

Lemma stable_refl ts s : stable ts s s.
Proof. split; [lia|]. intros l c _ H _. exact H. Qed.

Lemma stable_trans ts s1 s2 s3 : stable ts s1 s2 -> stable ts s2 s3 -> stable ts s1 s3.
Proof.
  intros [Hn1 H1] [Hn2 H2]. split; [lia|].
  intros l c Hl Hc Hk. apply H2; [lia| |exact Hk]. apply H1; assumption.
Qed.

Lemma alloc_spec (c : LazyValInternals LocExpr ObjValue NativeHandler HostFn) s l s' :
  alloc c s = (Ok l, s') ->
  l = next_loc s /\ next_loc s' = N.succ (next_loc s) /\ heap s' = <[l := c]> (heap s).
Proof. unfold alloc. intros H. injection H as <- <-. simpl. auto. Qed.

Lemma alloc_stable ts (c : LazyValInternals LocExpr ObjValue NativeHandler HostFn) s l s' :
  alloc c s = (Ok l, s') -> stable ts s s' /\ heap s' !! l = Some c.
Proof.
  intros H. apply alloc_spec in H as (-> & Hn & Hh).
  split; [split|].
  - rewrite Hn. lia.
  - intros l' c' Hl' Hc' _. rewrite Hh. rewrite lookup_insert_ne by lia. exact Hc'.
  - rewrite Hh. apply lookup_insert_eq.
Qed.

Lemma bind_value_spec ts ce s l s' :
  bind_value evaluate ts ce s = (Ok l, s') ->
  stable ts s s' /\ N.le (next_loc s) l /\ N.lt l (next_loc s') /\ bound_cell ts ce l s'.
Proof.
  unfold bind_value. destruct ts.
  - unfold bind. destruct (evaluate ce.1 ce.2 s) as [[v|e|q] s1] eqn:He; try discriminate.
    intros Ha. unfold LazyVal_new_resolved in Ha.
    destruct (evaluate_evolves _ _ _ _ _ He) as [Hk Hn].
    pose proof Ha as Ha'. apply alloc_spec in Ha' as (Hl & Hn' & _).
    apply (alloc_stable true) in Ha as (Hst & Hc).
    split; [|split; [|split]].
    + destruct Hst as [Hsn Hs]. split; [lia|].
      intros l' c Hl' Hc' [Hf|[w ->]]; [discriminate|].
      apply Hs; [lia| |right; eauto]. apply Hk. exact Hc'.
    + lia.
    + lia.
    + simpl. exists v, s, s1. split; [exact He|exact Hc].
  - intros Ha. unfold LazyVal_new in Ha.
    pose proof Ha as Ha'. apply alloc_spec in Ha' as (Hl & Hn' & _).
    apply (alloc_stable false) in Ha as (Hst & Hc).
    split; [exact Hst|split; [lia|split; [lia|exact Hc]]].
Qed.

Lemma bound_cell_stable ts ce l s s' :
  bound_cell ts ce l s -> N.lt l (next_loc s) -> stable ts s s' -> bound_cell ts ce l s'.
Proof.
  intros Hc Hl [_ Hs]. destruct ts; simpl in *.
  - destruct Hc as (v & s1 & s2 & He & Hh). exists v, s1, s2. split; [exact He|].
    apply Hs; [exact Hl|exact Hh|right; eauto].
  - apply Hs; [exact Hl|exact Hc|left; reflexivity].
Qed.

(** One step of the "Fill defaults" loop, as equations. *)
Lemma fill_cons ctx bc ts p ps id pa out s :
  fill ctx bc ts (p :: ps) id pa out s =
  match param_source ctx bc pa id p with
  | Ok ce =>
      match bind_value evaluate ts ce s with
      | (Ok l, s1) => fill ctx bc ts ps (S id) pa (<[p.1 := l]> out) s1
      | (Err e, s1) => (Err e, s1)
      | (Panic q, s1) => (Panic q, s1)
      end
  | Err e => (Err e, s)
  | Panic q => (Panic q, s)
  end.
Proof.
  simpl. unfold bind, lift.
  destruct (param_source ctx bc pa id p) as [ce|e|q]; [|reflexivity|reflexivity].
  destruct (bind_value evaluate ts ce s) as [[l|e|q] s1]; reflexivity.
Qed.

Lemma fill_stable ctx bc ts ps id pa out s out' s' :
  fill ctx bc ts ps id pa out s = (Ok out', s') -> stable ts s s'.
Proof.
  revert id out s. induction ps as [|p ps IH]; intros id out s.
  - simpl. unfold ret. intros H. injection H as <- <-. apply stable_refl.
  - rewrite fill_cons. destruct (param_source ctx bc pa id p) as [ce|e|q]; try discriminate.
    destruct (bind_value evaluate ts ce s) as [[l|e|q] s1] eqn:Hb; try discriminate.
    intros H. apply bind_value_spec in Hb as (Hst & _).
    eapply stable_trans; [exact Hst|]. eapply IH. exact H.
Qed.

Lemma fill_other ctx bc ts ps id pa out s out' s' x :
  fill ctx bc ts ps id pa out s = (Ok out', s') -> x ∉ map fst ps -> out' !! x = out !! x.
Proof.
  revert id out s. induction ps as [|p ps IH]; intros id out s.
  - simpl. unfold ret. intros H _. injection H as <- <-. reflexivity.
  - rewrite fill_cons. destruct (param_source ctx bc pa id p) as [ce|e|q]; try discriminate.
    destruct (bind_value evaluate ts ce s) as [[l|e|q] s1] eqn:Hb; try discriminate.
    intros H Hx. simpl in Hx. apply not_elem_of_cons in Hx as [Hx1 Hx2].
    rewrite (IH _ _ _ H Hx2). apply lookup_insert_ne. congruence.
Qed.

Lemma fill_params ctx bc ts ps id pa out s out' s' :
  fill ctx bc ts ps id pa out s = (Ok out', s') ->
  NoDup (map fst ps) ->
  forall j p, ps !! j = Some p ->
  exists ce l, param_source ctx bc pa (id + j) p = Ok ce /\
    out' !! p.1 = Some l /\ bound_cell ts ce l s'.
Proof.
  revert id out s. induction ps as [|q ps IH]; intros id out s H Hnd j p Hj; [discriminate|].
  rewrite fill_cons in H.
  destruct (param_source ctx bc pa id q) as [ce|e|r] eqn:Hsrc; try discriminate.
  destruct (bind_value evaluate ts ce s) as [[l|e|r] s1] eqn:Hb; try discriminate.
  simpl in Hnd. apply NoDup_cons in Hnd as [Hq Hnd].
  destruct j as [|j].
  - simpl in Hj. injection Hj as <-. exists ce, l. rewrite Nat.add_0_r.
    split; [exact Hsrc|].
    apply bind_value_spec in Hb as (_ & _ & Hlt & Hcell).
    split.
    + rewrite (fill_other _ _ _ _ _ _ _ _ _ _ _ H Hq). apply lookup_insert_eq.
    + eapply bound_cell_stable; [exact Hcell|exact Hlt|]. eapply fill_stable. exact H.
  - simpl in Hj. destruct (IH _ _ _ H Hnd j p Hj) as (ce' & l' & Hs' & Ho & Hc).
    exists ce', l'. replace (id + S j) with (S id + j) by lia. auto.
Qed.

Lemma fill_kinds ctx bc ts ps id pa out s out' s' :
  fill ctx bc ts ps id pa out s = (Ok out', s') ->
  (forall x l, out !! x = Some l -> N.lt l (next_loc s) /\ cell_kind ts (heap s !! l)) ->
  forall x l, out' !! x = Some l -> N.lt l (next_loc s') /\ cell_kind ts (heap s' !! l).
Proof.
  revert id out s. induction ps as [|q ps IH]; intros id out s H Hinv.
  - simpl in H. unfold ret in H. injection H as <- <-. exact Hinv.
  - rewrite fill_cons in H.
    destruct (param_source ctx bc pa id q) as [ce|e|r]; try discriminate.
    destruct (bind_value evaluate ts ce s) as [[l|e|r] s1] eqn:Hb; try discriminate.
    apply (IH _ _ _ H). intros x l' Hx.
    apply bind_value_spec in Hb as (Hst & Hle & Hlt & Hcell).
    destruct (decide (x = q.1)) as [->|Hne].
    + rewrite lookup_insert_eq in Hx. injection Hx as <-. split; [exact Hlt|].
      destruct ts; simpl in Hcell |- *.
      * destruct Hcell as (v & _ & _ & _ & Hh). exists v. exact Hh.
      * eexists. exact Hcell.
    + rewrite lookup_insert_ne in Hx by congruence. destruct (Hinv x l' Hx) as [Hl Hk].
      destruct Hst as [Hn Hs]. split; [lia|].
      destruct ts; simpl in Hk |- *; destruct Hk as [w Hw]; exists w.
      * apply Hs; [exact Hl|exact Hw|right; eauto].
      * apply Hs; [exact Hl|exact Hw|left; reflexivity].
Qed.

Lemma parse_function_call_ok ctx bc params args ts s c s' :
  bind_call ctx bc params args ts s = (Ok c, s') ->
  exists pos out,
    place_args_loop params 0 args (replicate (List.length params) None) = Ok pos /\
    fill ctx bc ts params 0 pos ∅ s = (Ok out, s') /\
    c = Context_extend (default ctx bc) out.
Proof.
  unfold parse_function_call, bind, lift.
  destruct (place_args_loop _ _ _ _) as [pos|e|q] eqn:Hpl; try discriminate.
  destruct (fill ctx bc ts params 0 pos ∅ s) as [[out|e|q] s1] eqn:Hf; try discriminate.
  unfold ret. intros H. injection H as <- <-. exists pos, out. auto.
Qed.

(** C2: with a callee environment [body_ctx = Some bc], every parameter left
    without an argument is bound to its default expression evaluated in [bc]
    (a computed thunk holding a value of [evaluate bc d] under tail-strict
    binding, a thunk waiting to evaluate [d] in [bc] otherwise), and the
    resulting frame extends [bc]. *)
Theorem parse_function_call_body_ctx ctx bc (params : ParamsDesc) (args : ArgsDesc)
    ts s c s' :
  bind_call ctx (Some bc) params args ts s = (Ok c, s') ->
  NoDup (map fst params) ->
  exists pos out,
    place_args_loop params 0 args (replicate (List.length params) None) = Ok pos /\
    c = Context_extend bc out /\
    forall i p d, params !! i = Some p -> pos !! i = Some None -> p.2 = Some d ->
      exists l, out !! p.1 = Some l /\ bound_cell ts (bc, d) l s'.
Proof.
  intros H Hnd. apply parse_function_call_ok in H as (pos & out & Hpl & Hf & ->).
  exists pos, out. split; [exact Hpl|split; [reflexivity|]].
  intros i p d Hp Hpos Hd.
  destruct (fill_params _ _ _ _ _ _ _ _ _ _ Hf Hnd i p Hp) as (ce & l & Hsrc & Ho & Hc).
  unfold param_source in Hsrc. simpl in Hsrc. rewrite Hpos, Hd in Hsrc. simpl in Hsrc.
  injection Hsrc as <-. exists l. auto.
Qed.

(** C4: after a successful binding every thunk of the new frame is computed
    under tail-strict binding, and waiting otherwise. *)
Theorem parse_function_call_tailstrict ctx body_ctx (params : ParamsDesc) (args : ArgsDesc)
    tailstrict s c s' :
  bind_call ctx body_ctx params args tailstrict s = (Ok c, s') ->
  exists out, c = Context_extend (default ctx body_ctx) out /\
    forall x l, out !! x = Some l ->
      if tailstrict then exists v, heap s' !! l = Some (Computed v)
      else exists f, heap s' !! l = Some (Waiting f).
Proof.
  intros H. apply parse_function_call_ok in H as (pos & out & _ & Hf & ->).
  exists out. split; [reflexivity|]. intros x l Hx.
  assert (Hinit : forall x l, (∅ : gmap string loc) !! x = Some l ->
                   N.lt l (next_loc s) /\ cell_kind tailstrict (heap s !! l))
    by (intros ? ? H0; rewrite lookup_empty in H0; discriminate).
  destruct (fill_kinds _ _ _ _ _ _ _ _ _ _ Hf Hinit x l Hx) as [_ Hc].
  exact Hc.
Qed.

(** *** The binder without a callee context *)

(** C10: when the binder has no callee context, placing the arguments
    succeeds and the parameters before [i] are bound, a parameter [i] left
    without an argument but with a default makes the binder panic with
    [NO_DEFAULT_CONTEXT] rather than return an error; a native extension
    binds its parameters this way (tail-strict, no callee context), so its
    application reaches the same panic. *)
Theorem parse_function_call_no_body_ctx ctx (params : ParamsDesc) (args : ArgsDesc)
    tailstrict (s : State) pos i p d out s' :
  place_args_loop params 0 args (replicate (List.length params) None) = Ok pos ->
  params !! i = Some p -> pos !! i = Some None -> p.2 = Some d ->
  fill ctx None tailstrict (take i params) 0 pos ∅ s = (Ok out, s') ->
  bind_call ctx None params args tailstrict s = (Panic NO_DEFAULT_CONTEXT, s') /\
  (tailstrict = true ->
   forall name (handler : NativeCallback LocExpr NativeHandler) b,
     nc_params handler = params ->
     FuncVal_evaluate evaluate host_run call_builtin native_call
       (NativeExt name handler) ctx args b s = (Panic NO_DEFAULT_CONTEXT, s')).
Proof.
  intros Hpl Hp Hpos Hdef Hfill.
  assert (Hps : params = take i params ++ p :: drop (S i) params)
    by (symmetry; apply take_drop_middle; exact Hp).
  assert (Hlen : List.length (take i params) = i)
    by (eapply length_take_lookup; exact Hp).
  assert (Hf : fill ctx None tailstrict params 0 pos ∅ s = (Panic NO_DEFAULT_CONTEXT, s')).
  { rewrite Hps at 1. rewrite fill_defaults_loop_app, Hfill, Hlen. simpl.
    unfold bind, lift, param_source. rewrite Hpos, Hdef. reflexivity. }
  assert (Hcall : bind_call ctx None params args tailstrict s = (Panic NO_DEFAULT_CONTEXT, s')).
  { unfold parse_function_call, bind, lift. rewrite Hpl, Hf. reflexivity. }
  split; [exact Hcall|].
  intros Hts name handler b Hh. subst tailstrict.
  simpl. unfold bind. rewrite Hh, Hcall. reflexivity.
Qed.

(** *** Manifestation *)

(** C5 (as the code has it): under [YamlStream (YamlStream f)] an array fails
    with [StreamManifestOutputCannotBeRecursed] and under [YamlStream String]
    with [StreamManifestCannotNestString], in both cases without forcing any
    element (the state is unchanged); any other value fails first with
    [StreamManifestOutputIsNotAArray]. *)
Theorem manifest_stream_nesting (v : Val) f (s : State) :
  manifest_ v (ManifestFormat.YamlStream (ManifestFormat.YamlStream f)) s
  = (Err (match v with
          | Arr _ => StreamManifestOutputCannotBeRecursed
          | _ => StreamManifestOutputIsNotAArray
          end), s) /\
  manifest_ v (ManifestFormat.YamlStream ManifestFormat.String) s
  = (Err (match v with
          | Arr _ => StreamManifestCannotNestString
          | _ => StreamManifestOutputIsNotAArray
          end), s).
Proof. destruct v; split; reflexivity. Qed.

(** *** Equality *)

(** C7 (as the code has it): two functions are never compared, [equals]
    fails with the function-comparison error; a function against a value of
    another type is unequal, without error. *)
Theorem equals_functions fuel (f g : FuncVal LocExpr NativeHandler) (v : Val) (s : State) :
  equals_ (S fuel) (Func f) (Func g) s
  = (Err (RuntimeError "cannot test equality of functions"), s) /\
  match v with
  | Func _ => True
  | _ => equals_ (S fuel) (Func f) v s = (Ok false, s) /\
         equals_ (S fuel) v (Func f) s = (Ok false, s)
  end.
Proof. split; [reflexivity|]. destruct v; try split; reflexivity. Qed.


Lemma string_append_cons c (x y : string) :
  String.append (String c x) y = String c (String.append x y).
Proof. reflexivity. Qed.

Lemma string_append_empty_r (x : string) : String.append x "" = x.
Proof. induction x as [|c x IH]; [reflexivity|]. rewrite string_append_cons, IH. reflexivity. Qed.

Lemma string_append_assoc (x y z : string) :
  String.append x (String.append y z) = String.append (String.append x y) z.
Proof.
  induction x as [|c x IH]; [reflexivity|].
  rewrite !string_append_cons, IH. reflexivity.
Qed.

Lemma yaml_stream_loop_docs a f idxs (s : State) ms s' out :
  stream_docs a f idxs s ms s' ->
  yaml_stream_loop evaluate host_run a (fun v => manifest_ v f) idxs out s
  = (Ok (String.append out (yaml_docs ms)), s').
Proof.
  intros H. revert out. induction H as [s|i idxs s v s1 m s2 ms s3 Hv Hm _ IH]; intros out.
  - simpl. rewrite string_append_empty_r. reflexivity.
  - simpl. unfold bind. rewrite Hv, Hm. rewrite IH.
    rewrite <- !string_append_assoc. reflexivity.
Qed.

Lemma manifest_yaml_stream_arr f a (s : State) :
  nests_in_stream f = true ->
  manifest_ (Arr a) (ManifestFormat.YamlStream f) s
  = (if negb (ArrValue_is_empty a)
     then bind (yaml_stream_loop evaluate host_run a (fun v => manifest_ v f)
                  (seq 0 (ArrValue_len a)) "")
               (fun out => ret (String.append out "..."))
     else ret "") s.
Proof. intros Hf. destruct f; try discriminate Hf; reflexivity. Qed.

(** C6: under [YamlStream f], with [f] a format a stream may nest, an array
    whose items, forced and manifested under [f] one after the other, give
    the documents [ms] manifests to each document behind a [---] line, then
    [...] when there is a document at all; an empty array manifests to the
    empty string; any other value fails with
    [StreamManifestOutputIsNotAArray]. *)
Theorem manifest_yaml_stream f (s : State) :
  nests_in_stream f = true ->
  (forall a ms s', stream_docs a f (seq 0 (ArrValue_len a)) s ms s' ->
     manifest_ (Arr a) (ManifestFormat.YamlStream f) s = (Ok (yaml_stream_text ms), s')) /\
  (forall a, ArrValue_len a = 0 ->
     manifest_ (Arr a) (ManifestFormat.YamlStream f) s = (Ok "", s)) /\
  (forall v : Val, match v with
     | Arr _ => True
     | _ => manifest_ v (ManifestFormat.YamlStream f) s
            = (Err StreamManifestOutputIsNotAArray, s)
     end).
Proof.
  intros Hf. split; [|split].
  - intros a ms s' Hd. rewrite (manifest_yaml_stream_arr f a s Hf).
    unfold ArrValue_is_empty.
    destruct (ArrValue_len a) as [|k] eqn:Hlen.
    + simpl. inversion Hd. reflexivity.
    + replace (negb (Nat.eqb (S k) 0)) with true by reflexivity.
      unfold bind. rewrite (yaml_stream_loop_docs _ _ _ _ _ _ "" Hd).
      destruct ms as [|m ms]; [inversion Hd|]. reflexivity.
  - intros a Hlen. rewrite (manifest_yaml_stream_arr f a s Hf).
    unfold ArrValue_is_empty. rewrite Hlen. reflexivity.
  - intros v. destruct v; reflexivity.
Qed.


(** *** Reflexivity of equality *)

(** A finite float is within [f64::EPSILON] of itself: [x - x] is a zero. *)
Lemma sub_self_within_eps (x : float) :
  PrimFloat.is_finite x = true ->
  PrimFloat.leb (PrimFloat.abs (PrimFloat.sub x x)) f64_EPSILON = true.
Proof.
  intros H.
  unfold PrimFloat.is_finite, PrimFloat.is_nan, PrimFloat.is_infinity in H.
  rewrite !FloatAxioms.eqb_spec, FloatAxioms.abs_spec in H.
  rewrite FloatAxioms.leb_spec, FloatAxioms.abs_spec, FloatAxioms.sub_spec.
  change (Prim2SF infinity) with (S754_infinity false) in H.
  destruct (Prim2SF x) as [sx|sx| |sx mx ex].
  - destruct sx; reflexivity.
  - destruct sx; discriminate H.
  - discriminate H.
  - unfold SF64sub, SFsub. cbv beta iota. rewrite Z.sub_diag. reflexivity.
Qed.

(** *** Lazy and eager arrays *)

Lemma keeps_computed_trans (s1 s2 s3 : State) :
  keeps_computed s1 s2 -> keeps_computed s2 s3 -> keeps_computed s1 s3.
Proof. intros H12 H23 l v H. apply H23, H12, H. Qed.

Lemma run_keeps (f : LazyFn LocExpr HostFn) (s : State) r s' :
  run f s = (r, s') -> keeps_computed s s'.
Proof.
  destruct f as [c e|h]; simpl; intros H.
  - apply (evaluate_evolves _ _ _ _ _ H).
  - apply (host_run_evolves _ _ _ _ H).
Qed.

Lemma force_keeps (l : loc) (s : State) r s' :
  force l s = (r, s') -> keeps_computed s s'.
Proof.
  unfold LazyVal_evaluate. intros H.
  destruct (heap s !! l) as [[v|f]|] eqn:Hl.
  - injection H as _ <-. intros l' w Hw. exact Hw.
  - destruct (run f s) as [[v|e|p] s1] eqn:Hrun; injection H as _ <-;
      pose proof (run_keeps _ _ _ _ Hrun) as Hk.
    + intros l' w Hw. unfold set_cell. simpl.
      destruct (decide (l' = l)) as [->|Hne]; [congruence|].
      rewrite lookup_insert_ne by congruence. apply Hk, Hw.
    + exact Hk.
    + exact Hk.
  - injection H as _ <-. intros l' w Hw. exact Hw.
Qed.

Lemma force_ok_computed (l : loc) (s : State) v s' :
  force l s = (Ok v, s') -> heap s' !! l = Some (Computed v).
Proof.
  unfold LazyVal_evaluate. intros H.
  destruct (heap s !! l) as [[w|f]|] eqn:Hl; [injection H as -> <-; exact Hl| |discriminate].
  destruct (run f s) as [[w|e|p] s1]; try discriminate.
  injection H as -> <-. unfold set_cell. simpl. apply lookup_insert_eq.
Qed.

Lemma force_computed (l : loc) (s : State) v :
  heap s !! l = Some (Computed v) -> force l s = (Ok v, s).
Proof. intros H. unfold LazyVal_evaluate. rewrite H. reflexivity. Qed.

Lemma equals_arr_loop_eager fuel n (vs : list Val) :
  (forall a s s', settles n a s s' -> equals_ fuel a a s = (Ok true, s')) ->
  forall items s s', chain (settles n) items s s' ->
  forall k, drop k vs = items ->
  equals_arr_loop evaluate host_run (Eager vs) (Eager vs) (equals_ fuel)
    (seq k (List.length items)) s = (Ok true, s').
Proof.
  intros IH items s s' H. induction H as [s|v items s s1 s2 Hv _ IHc]; intros k Hk.
  - reflexivity.
  - assert (Hl : vs !! k = Some v).
    { rewrite <- (Nat.add_0_r k), <- lookup_drop, Hk. reflexivity. }
    simpl. rewrite Hl. unfold bind, lift. simpl. rewrite (IH _ _ _ Hv). simpl.
    apply IHc. rewrite (drop_S _ _ _ Hl) in Hk. congruence.
Qed.

Lemma equals_arr_loop_lazy fuel n (ls : list loc) :
  (forall a s s', settles n a s s' -> equals_ fuel a a s = (Ok true, s')) ->
  forall items s s',
  chain (fun l s s2 => exists v s1, force l s = (Ok v, s1) /\ settles n v s1 s2) items s s' ->
  forall k, drop k ls = items ->
  equals_arr_loop evaluate host_run (Lazy ls) (Lazy ls) (equals_ fuel)
    (seq k (List.length items)) s = (Ok true, s').
Proof.
  intros IH items s s' H. induction H as [s|l items s s2 s3 (v & s1 & Hf & Hv) _ IHc];
    intros k Hk.
  - reflexivity.
  - assert (Hl : ls !! k = Some l).
    { rewrite <- (Nat.add_0_r k), <- lookup_drop, Hk. reflexivity. }
    simpl. rewrite Hl, Hf, (force_computed l s1 v (force_ok_computed l s v s1 Hf)).
    unfold bind, lift. simpl. rewrite (IH _ _ _ Hv). simpl.
    apply IHc. rewrite (drop_S _ _ _ Hl) in Hk. congruence.
Qed.

Lemma equals_obj_loop_self fuel n (o : ObjValue) :
  (forall a s s', settles n a s s' -> equals_ fuel a a s = (Ok true, s')) ->
  forall fs s s',
  chain (fun f s s3 => exists v s1 s2, obj_get o f s = (Ok (Some v), s1) /\
           obj_get o f s1 = (Ok (Some v), s2) /\ settles n v s2 s3) fs s s' ->
  equals_obj_loop obj_get o o (equals_ fuel) fs s = (Ok true, s').
Proof.
  intros IH fs s s' H. induction H as [s|f fs s s3 s4 (v & s1 & s2 & H1 & H2 & Hv) _ IHc].
  - reflexivity.
  - simpl. unfold bind. rewrite H1. simpl. rewrite H2. simpl.
    rewrite (IH _ _ _ Hv). simpl. exact IHc.
Qed.

Lemma equals_settles_refl n : forall (a : Val) (s s' : State) fuel,
  settles n a s s' -> n < fuel -> equals_ fuel a a s = (Ok true, s').
Proof.
  induction n as [|n IH]; intros a s s' fuel Hs Hlt;
    (destruct fuel as [|fuel]; [lia|]);
    inversion Hs as [m b s0|m s0|m x s0|m x s0 Hx|m vs s1 s2 Hc|m ls s1 s2 Hc|m o s1 s2 Hc]; subst.
  all: try (destruct b; reflexivity).
  all: try reflexivity.
  all: try (simpl; rewrite String.eqb_refl; reflexivity).
  all: try (simpl; rewrite (sub_self_within_eps x Hx); reflexivity).
  - simpl. rewrite Nat.eqb_refl. simpl.
    exact (equals_arr_loop_eager fuel n vs
             (fun a s s' H => IH a s s' fuel H ltac:(lia)) vs s s' Hc 0 (drop_0 vs)).
  - simpl. rewrite Nat.eqb_refl. simpl.
    exact (equals_arr_loop_lazy fuel n ls
             (fun a s s' H => IH a s s' fuel H ltac:(lia)) ls s s' Hc 0 (drop_0 ls)).
  - simpl. rewrite bool_decide_true by reflexivity. simpl.
    exact (equals_obj_loop_self fuel n o
             (fun a s s' H => IH a s s' fuel H ltac:(lia)) _ s s' Hc).
Qed.

(** C8 (as the code has it): a value with no function and no NaN or
    infinite number anywhere in it, whose thunks, forced in the order
    [equals] goes through them, succeed (a waiting thunk is run and cached
    on the first side, then read back from its cell on the second), and
    whose objects give each visible field without error, the same value
    when got again, equals itself, given stack for its depth. *)
Theorem equals_refl_settles (a : Val) (s s' : State) n fuel :
  settles n a s s' -> n < fuel -> equals_ fuel a a s = (Ok true, s').
Proof. apply equals_settles_refl. Qed.

Lemma evaluate_all_spec (ls : list loc) : forall (s : State) r s',
  evaluate_all evaluate host_run ls s = (r, s') ->
  keeps_computed s s' /\
  forall vs, r = Ok vs -> Forall2 (fun l v => heap s' !! l = Some (Computed v)) ls vs.
Proof.
  induction ls as [|l ls IH]; intros s r s' H.
  - simpl in H. injection H as <- <-.
    split; [intros l v Hv; exact Hv|]. intros vs [= <-]. constructor.
  - simpl in H. unfold bind in H.
    destruct (force l s) as [[v|e|p] s1] eqn:Hf;
      pose proof (force_keeps _ _ _ _ Hf) as Hk1.
    + destruct (evaluate_all evaluate host_run ls s1) as [[vs1|e|p] s2] eqn:Hr;
        destruct (IH _ _ _ Hr) as [Hk2 Hvs]; injection H as <- <-;
        (split; [eapply keeps_computed_trans; eassumption|]); intros vs Hvs'; try discriminate.
      injection Hvs' as <-. constructor.
      * apply Hk2. eapply force_ok_computed. exact Hf.
      * apply Hvs. reflexivity.
    + injection H as <- <-. split; [exact Hk1|discriminate].
    + injection H as <- <-. split; [exact Hk1|discriminate].
Qed.

(** C9: a lazy array whose thunks force, one by one, to the items of an
    eager array gives, at every index, the same result of [get] as the eager
    one: the item below the length, [None] from it on; after [evaluated]
    succeeds on a lazy array with [vs], each thunk of it is computed to the
    matching item of [vs], and from then on [get] on the lazy array and on
    the eager array of [vs] agree, result and state. *)
Theorem ArrValue_lazy_eager (ls : list loc) (vs : list Val) (s : State) :
  (Forall2 (forces_to s) ls vs ->
   forall i, fst (get (Lazy ls) i s) = fst (get (Eager vs) i s) /\
             fst (get (Eager vs) i s) = Ok (vs !! i)) /\
  (forall vs' s', evaluated (Lazy ls) s = (Ok vs', s') ->
     Forall2 (fun l v => heap s' !! l = Some (Computed v)) ls vs' /\
     forall i, get (Lazy ls) i s' = get (Eager vs') i s').
Proof.
  split.
  - intros HF i. split; [|reflexivity]. simpl.
    destruct (ls !! i) as [l|] eqn:Hl.
    + destruct (Forall2_lookup_l _ _ _ _ _ HF Hl) as (v & Hv & Hft).
      rewrite Hv. unfold bind, LazyVal_evaluate.
      destruct Hft as [Hc|(f & s1 & Hw & Hrun)].
      * rewrite Hc. reflexivity.
      * rewrite Hw, Hrun. reflexivity.
    + apply lookup_ge_None_1 in Hl. rewrite (Forall2_length _ _ _ HF) in Hl.
      rewrite (lookup_ge_None_2 vs i Hl). reflexivity.
  - intros vs' s' H. simpl in H.
    destruct (evaluate_all_spec ls s _ _ H) as [_ Hvs].
    specialize (Hvs vs' eq_refl). split; [exact Hvs|].
    intros i. simpl. destruct (ls !! i) as [l|] eqn:Hl.
    + destruct (Forall2_lookup_l _ _ _ _ _ Hvs Hl) as (v & Hv & Hc).
      rewrite Hv. unfold bind, LazyVal_evaluate. rewrite Hc. reflexivity.
    + apply lookup_ge_None_1 in Hl. rewrite (Forall2_length _ _ _ Hvs) in Hl.
      rewrite (lookup_ge_None_2 vs' i Hl). reflexivity.
Qed.


(** *** Shortcuts of [equals] *)

(** Values of different types, arrays of different lengths and objects with
    different visible field lists are unequal, without any element or field
    being forced or read. *)
Theorem equals_shortcuts fuel (a b : Val) (s : State) :
  (ValType.eqb (value_type a) (value_type b) = false ->
   equals_ (S fuel) a b s = (Ok false, s)) /\
  (forall x y : ArrValue, ArrValue_len x <> ArrValue_len y ->
   equals_ (S fuel) (Arr x) (Arr y) s = (Ok false, s)) /\
  (forall o p, visible_fields o <> visible_fields p ->
   equals_ (S fuel) (Obj o) (Obj p) s = (Ok false, s)).
Proof.
  split; [|split].
  - intros H. simpl. rewrite H. reflexivity.
  - intros x y H. simpl. apply Nat.eqb_neq in H. rewrite H. reflexivity.
  - intros o q H. simpl. rewrite bool_decide_false by exact H. reflexivity.
Qed.

(** [primitive_equals] is symmetric on every pair other than two numbers. *)
Theorem primitive_equals_sym (a b : Val) :
  match a, b with
  | Num _, Num _ => True
  | _, _ => primitive_equals a b = primitive_equals b a
  end.
Proof.
  destruct a, b; try exact I; try reflexivity; simpl.
  - destruct b, b0; reflexivity.
  - rewrite String.eqb_sym. reflexivity.
Qed.

(** *** Casts and checked numbers *)

(** The casts never panic: the [matches_unwrap!] after [assert_type] is
    unreachable.  A value of the expected type gives its payload, any other
    fails with [TypeMismatch] naming the context, the expected type and the
    value's type. *)
Theorem try_cast_spec (v : Val) (context : string) :
  try_cast_bool v context =
    match v with Bool b => Ok b | _ => Err (TypeMismatch context [ValType.Bool] (value_type v)) end /\
  try_cast_str v context =
    match v with Str x => Ok x | _ => Err (TypeMismatch context [ValType.Str] (value_type v)) end /\
  try_cast_num v context =
    match v with Num n => Ok n | _ => Err (TypeMismatch context [ValType.Num] (value_type v)) end.
Proof. destruct v; repeat split; reflexivity. Qed.

(** [new_checked_num] accepts exactly the finite numbers and fails with the
    [overflow] runtime error on NaN and the infinities; a number it accepts
    equals itself. *)
Theorem new_checked_num_spec (n : float) :
  Val_new_checked_num LocExpr ObjValue NativeHandler n
  = (if PrimFloat.is_finite n then Ok (Num n) else Err (RuntimeError "overflow")) /\
  forall v fuel (s : State), Val_new_checked_num LocExpr ObjValue NativeHandler n = Ok v ->
    equals_ (S fuel) v v s = (Ok true, s).
Proof.
  split; [reflexivity|].
  intros v fuel s. unfold Val_new_checked_num.
  destruct (PrimFloat.is_finite n) eqn:Hf; [|discriminate].
  intros H. injection H as <-. simpl. rewrite (sub_self_within_eps n Hf). reflexivity.
Qed.

(** *** More of [ArrValue] *)

(** [reversed] keeps the length, reads index [i] of the result at index
    [len - 1 - i] of the original (the same result and effect: a lazy cell is
    the same cell), has nothing from the length on, and undoes itself. *)
Theorem ArrValue_reversed_spec (a : ArrValue) (s : State) :
  ArrValue_len (ArrValue_reversed a) = ArrValue_len a /\
  (forall i, i < ArrValue_len a ->
     get (ArrValue_reversed a) i s = get a (ArrValue_len a - S i) s) /\
  (forall i, ArrValue_len a <= i -> get (ArrValue_reversed a) i s = (Ok None, s)) /\
  ArrValue_reversed (ArrValue_reversed a) = a.
Proof.
  destruct a as [ls|vs]; simpl; (split; [apply length_reverse|]).
  - split; [|split].
    + intros i Hi. rewrite reverse_lookup by exact Hi. reflexivity.
    + intros i Hi. rewrite lookup_ge_None_2 by (rewrite length_reverse; exact Hi). reflexivity.
    + rewrite reverse_involutive. reflexivity.
  - split; [|split].
    + intros i Hi. rewrite reverse_lookup by exact Hi. reflexivity.
    + intros i Hi. rewrite lookup_ge_None_2 by (rewrite length_reverse; exact Hi). reflexivity.
    + rewrite reverse_involutive. reflexivity.
Qed.

(** [get_lazy] never fails.  On a lazy array it hands out the array's own
    thunk, so forcing it is [get] (same result, same caching); on an eager
    array it allocates a fresh computed thunk holding the item, at the next
    free location, and leaves every other cell, computed or waiting, as it
    was; from the length on it gives [None]. *)
Theorem ArrValue_get_lazy_spec (a : ArrValue) i (s : State) :
  (ArrValue_len a <= i -> ArrValue_get_lazy a i s = (Ok None, s)) /\
  (forall ls l, a = Lazy ls -> ls !! i = Some l ->
     ArrValue_get_lazy a i s = (Ok (Some l), s) /\
     get a i s = bind (force l) (fun v => ret (Some v)) s) /\
  (forall vs v, a = Eager vs -> vs !! i = Some v ->
     exists s1, ArrValue_get_lazy a i s = (Ok (Some (next_loc s)), s1) /\
       force (next_loc s) s1 = (Ok v, s1) /\ get a i s = (Ok (Some v), s) /\
       stable false s s1 /\ next_loc s1 = N.succ (next_loc s) /\
       heap s1 = <[next_loc s := Computed v]> (heap s)).
Proof.
  split; [|split].
  - intros Hi. destruct a as [ls|vs]; simpl in *.
    + rewrite lookup_ge_None_2 by exact Hi. reflexivity.
    + rewrite lookup_ge_None_2 by exact Hi. reflexivity.
  - intros ls l -> Hl. simpl. rewrite Hl. split; reflexivity.
  - intros vs v -> Hv. simpl. rewrite Hv. unfold bind.
    destruct (LazyVal_new_resolved v s) as [r1 s1] eqn:Ha.
    pose proof Ha as Ha'. unfold LazyVal_new_resolved in Ha'.
    destruct r1 as [l| |]; try (unfold alloc in Ha'; discriminate Ha').
    pose proof (alloc_spec _ _ _ _ Ha') as (-> & Hn & Hh).
    destruct (alloc_stable false _ _ _ _ Ha') as [Hst Hc].
    exists s1. split; [reflexivity|]. split.
    + unfold LazyVal_evaluate. rewrite Hc. reflexivity.
    + split; [reflexivity|]. split; [exact Hst|]. split; [exact Hn|exact Hh].
Qed.

(** *** [manifest_stream] and [manifest_multi] *)

Lemma yaml_stream_loop_stream a f idxs (s : State) out :
  yaml_stream_loop evaluate host_run a (fun v => manifest_ v f) idxs out s
  = match manifest_stream_loop evaluate host_run manifest_json_ex to_yaml a f idxs s with
    | (Ok ms, s') => (Ok (String.append out (yaml_docs ms)), s')
    | (Err e, s') => (Err e, s')
    | (Panic p, s') => (Panic p, s')
    end.
Proof.
  revert s out. induction idxs as [|i idxs IH]; intros s out.
  - simpl. rewrite string_append_empty_r. reflexivity.
  - simpl. unfold bind.
    destruct (iter_at a i s) as [[v|e|p] s1]; [|reflexivity|reflexivity].
    destruct (manifest_ v f s1) as [[m|e|p] s2]; [|reflexivity|reflexivity].
    rewrite IH.
    destruct (manifest_stream_loop evaluate host_run manifest_json_ex to_yaml a f idxs s2)
      as [[ms|e|p] s3]; [|reflexivity|reflexivity].
    simpl. rewrite <- !string_append_assoc. reflexivity.
Qed.

Lemma manifest_stream_loop_length a f idxs (s : State) ms s' :
  manifest_stream_loop evaluate host_run manifest_json_ex to_yaml a f idxs s = (Ok ms, s') ->
  List.length ms = List.length idxs.
Proof.
  revert s ms s'. induction idxs as [|i idxs IH]; intros s ms s'.
  - simpl. intros H. injection H as <- _. reflexivity.
  - simpl. unfold bind.
    destruct (iter_at a i s) as [[v|e|p] s1]; try discriminate.
    destruct (manifest_ v f s1) as [[m|e|p] s2]; try discriminate.
    destruct (manifest_stream_loop evaluate host_run manifest_json_ex to_yaml a f idxs s2)
      as [[ms'|e|p] s3] eqn:Hr; try discriminate.
    intros H. injection H as <- _. simpl. f_equal. exact (IH _ _ _ Hr).
Qed.

(** [manifest] under [YamlStream f], for a format [f] a stream may nest, is
    [manifest_stream] under [f] followed by the stream layout of the
    documents: the same documents, errors and effects, in the same order. *)
Theorem manifest_yaml_stream_via_stream f (v : Val) (s : State) :
  nests_in_stream f = true ->
  manifest_ v (ManifestFormat.YamlStream f) s
  = match Val_manifest_stream evaluate host_run manifest_json_ex to_yaml v f s with
    | (Ok ms, s') => (Ok (yaml_stream_text ms), s')
    | (Err e, s') => (Err e, s')
    | (Panic p, s') => (Panic p, s')
    end.
Proof.
  intros Hf. destruct v as [| | | |a| |]; try (destruct f; try discriminate Hf; reflexivity).
  rewrite (manifest_yaml_stream_arr f a s Hf). unfold ArrValue_is_empty. simpl.
  destruct (ArrValue_len a) as [|k] eqn:Hlen; [reflexivity|].
  replace (negb (Nat.eqb (S k) 0)) with true by reflexivity.
  unfold bind. rewrite yaml_stream_loop_stream.
  destruct (manifest_stream_loop evaluate host_run manifest_json_ex to_yaml a f (seq 0 (S k)) s)
    as [[ms|e|p] s'] eqn:Hr; [|reflexivity|reflexivity].
  apply manifest_stream_loop_length in Hr. rewrite length_seq in Hr.
  destruct ms as [|m ms]; [discriminate Hr|]. reflexivity.
Qed.

Lemma manifest_multi_loop_keys o f keys (s : State) out s' :
  manifest_multi_loop evaluate host_run manifest_json_ex to_yaml obj_get o f keys s = (Ok out, s') ->
  map fst out = keys.
Proof.
  revert s out s'. induction keys as [|k keys IH]; intros s out s'.
  - simpl. intros H. injection H as <- _. reflexivity.
  - simpl. unfold bind.
    destruct (obj_get o k s) as [[ov|e|p] s1]; try discriminate.
    destruct ov as [v|]; [|discriminate].
    simpl. destruct (manifest_ v f s1) as [[m|e|p] s2]; try discriminate.
    destruct (manifest_multi_loop evaluate host_run manifest_json_ex to_yaml obj_get o f keys s2)
      as [[out'|e|p] s3] eqn:Hr; try discriminate.
    intros H. injection H as <- _. simpl. f_equal. exact (IH _ _ _ Hr).
Qed.

Lemma manifest_multi_loop_app_panic o f pre rest (s : State) out s1 msg s2 :
  manifest_multi_loop evaluate host_run manifest_json_ex to_yaml obj_get o f pre s = (Ok out, s1) ->
  manifest_multi_loop evaluate host_run manifest_json_ex to_yaml obj_get o f rest s1 = (Panic msg, s2) ->
  manifest_multi_loop evaluate host_run manifest_json_ex to_yaml obj_get o f (pre ++ rest) s
  = (Panic msg, s2).
Proof.
  revert s out. induction pre as [|k pre IH]; intros s out.
  - simpl. intros H. injection H as _ <-. auto.
  - simpl. unfold bind.
    destruct (obj_get o k s) as [[ov|e|p] s3]; try discriminate.
    destruct ov as [v|]; [|discriminate].
    simpl. destruct (manifest_ v f s3) as [[m|e|p] s4]; try discriminate.
    destruct (manifest_multi_loop evaluate host_run manifest_json_ex to_yaml obj_get o f pre s4)
      as [[out'|e|p] s5] eqn:Hr; try discriminate.
    intros H Hrest. injection H as _ <-. rewrite (IH _ _ Hr Hrest). reflexivity.
Qed.

(** [manifest_multi] fails on anything but an object with
    [MultiManifestOutputIsNotAObject], touching nothing; on an object its
    output has one entry per visible field, in the order of
    [fields(false)]; and a visible field the object cannot produce, reached
    once the fields before it have been manifested without error, is a
    panic ([expect("item in object")]) rather than an error. *)
Theorem Val_manifest_multi_spec f (s : State) :
  (forall v : Val, match v with
     | Obj _ => True
     | _ => Val_manifest_multi evaluate host_run manifest_json_ex to_yaml visible_fields obj_get v f s
            = (Err MultiManifestOutputIsNotAObject, s)
     end) /\
  (forall o out s', Val_manifest_multi evaluate host_run manifest_json_ex to_yaml visible_fields obj_get (Obj o) f s
     = (Ok out, s') -> map fst out = visible_fields o) /\
  (forall o pre k rest out s1 s2, visible_fields o = pre ++ k :: rest ->
     manifest_multi_loop evaluate host_run manifest_json_ex to_yaml obj_get o f pre s = (Ok out, s1) ->
     obj_get o k s1 = (Ok None, s2) ->
     Val_manifest_multi evaluate host_run manifest_json_ex to_yaml visible_fields obj_get (Obj o) f s
     = (Panic "item in object", s2)).
Proof.
  split; [|split].
  - intros v. destruct v; reflexivity.
  - intros o out s' H. exact (manifest_multi_loop_keys _ _ _ _ _ _ H).
  - intros o pre k rest out s1 s2 Hk Hpre Hg. simpl. rewrite Hk.
    apply (manifest_multi_loop_app_panic o f pre (k :: rest) s out s1 _ s2 Hpre).
    simpl. unfold bind. rewrite Hg. reflexivity.
Qed.

(** *** [place_args]: binding positional values *)

Lemma evaluate_stable c e (s : State) r s' :
  evaluate c e s = (r, s') -> stable true s s'.
Proof.
  intros He. destruct (evaluate_evolves _ _ _ _ _ He) as [Hk Hn].
  split; [exact Hn|]. intros l c' _ Hc [Hf|[w ->]]; [discriminate|]. apply Hk. exact Hc.
Qed.

Lemma place_values_loop_too_many (params : ParamsDesc) id (args : list Val) pa :
  List.length params < id + List.length args -> id <= List.length params ->
  place_values_loop params id args pa = Err (TooManyArgsFunctionHas (List.length params)).
Proof.
  revert id pa. induction args as [|a args IH]; intros id pa Hlt Hle; simpl in *; [lia|].
  destruct (Nat.leb_spec (List.length params) id); [reflexivity|].
  apply IH; lia.
Qed.

Lemma place_values_loop_ok (params : ParamsDesc) id (args : list Val) pa :
  id + List.length args <= List.length params -> List.length pa = List.length params ->
  place_values_loop params id args pa
  = Ok (take id pa ++ map Some args ++ drop (id + List.length args) pa).
Proof.
  revert id pa. induction args as [|a args IH]; intros id pa Hle Hlen; simpl in *.
  - rewrite Nat.add_0_r, take_drop. reflexivity.
  - destruct (Nat.leb_spec (List.length params) id); [lia|].
    rewrite IH by (rewrite ?length_insert; lia).
    rewrite (take_S_r _ _ (Some a)) by (apply list_lookup_insert_eq; lia).
    rewrite (take_insert_ge pa id id) by lia. rewrite (drop_insert_lt pa (S id + List.length args) id) by lia.
    rewrite <- app_assoc. replace (id + S (List.length args)) with (S id + List.length args) by lia. reflexivity.
Qed.

Lemma place_values_loop_start (params : ParamsDesc) (args : list Val) :
  List.length args <= List.length params ->
  place_values_loop params 0 args (replicate (List.length params) None)
  = Ok (map Some args ++ replicate (List.length params - List.length args) None).
Proof.
  intros Hle. rewrite place_values_loop_ok by (rewrite ?length_replicate; lia).
  simpl. rewrite drop_replicate. reflexivity.
Qed.

Lemma placed_lookup (args : list Val) n i :
  i < n -> List.length args <= n ->
  (map Some args ++ replicate (n - List.length args) None) !! i = Some (args !! i).
Proof.
  revert n i. induction args as [|a args IH]; intros n i Hi Hle; simpl.
  - rewrite Nat.sub_0_r. rewrite lookup_replicate_2 by exact Hi.
    destruct i; reflexivity.
  - destruct n as [|n]; [simpl in Hle; lia|].
    destruct i as [|i]; [reflexivity|]. simpl. apply IH; simpl in Hle; lia.
Qed.

(** One step of the "Fill defaults" loop of [place_args] that succeeds: the
    value is the positional argument, or the default evaluated in [ctx]; it
    is put in a fresh computed thunk. *)
Lemma place_values_fill_cons_ok ctx p ps id pa out (s : State) out' s' :
  place_values_fill evaluate ctx (p :: ps) id pa out s = (Ok out', s') ->
  exists (v : Val) s1,
    ((mjoin (pa !! id) = Some v /\ s1 = s) \/
     (mjoin (pa !! id) = None /\ exists d, p.2 = Some d /\ evaluate ctx d s = (Ok v, s1))) /\
    place_values_fill evaluate ctx ps (S id) pa (<[p.1 := next_loc s1]> out)
      {| heap := <[next_loc s1 := Computed v]> (heap s1); next_loc := N.succ (next_loc s1) |}
    = (Ok out', s').
Proof.
  simpl. unfold bind, ret.
  destruct (mjoin (pa !! id)) as [a|] eqn:Ha.
  - intros H. exists a, s. split; [left; auto|exact H].
  - destruct p as [x [d|]]; simpl; [|discriminate].
    destruct (evaluate ctx d s) as [[v|e|q] s1] eqn:He; try discriminate.
    intros H. exists v, s1. split; [right; eauto|exact H].
Qed.

Lemma place_values_fill_stable ctx ps id pa out (s : State) out' s' :
  place_values_fill evaluate ctx ps id pa out s = (Ok out', s') -> stable true s s'.
Proof.
  revert id out s. induction ps as [|p ps IH]; intros id out s H.
  - simpl in H. unfold ret in H. injection H as <- <-. apply stable_refl.
  - apply place_values_fill_cons_ok in H as (v & s1 & Hv & H).
    apply stable_trans with s1.
    + destruct Hv as [[_ ->]|(_ & d & _ & He)]; [apply stable_refl|].
      exact (evaluate_stable _ _ _ _ _ He).
    + eapply stable_trans; [|exact (IH _ _ _ H)].
      apply (alloc_stable true (Computed v) s1 (next_loc s1)). reflexivity.
Qed.

Lemma place_values_fill_other ctx ps id pa out (s : State) out' s' x :
  place_values_fill evaluate ctx ps id pa out s = (Ok out', s') ->
  x ∉ map fst ps -> out' !! x = out !! x.
Proof.
  revert id out s. induction ps as [|p ps IH]; intros id out s H Hx.
  - simpl in H. unfold ret in H. injection H as <- <-. reflexivity.
  - apply place_values_fill_cons_ok in H as (v & s1 & _ & H).
    simpl in Hx. apply not_elem_of_cons in Hx as [Hx1 Hx2].
    rewrite (IH _ _ _ H Hx2). apply lookup_insert_ne. congruence.
Qed.

Lemma place_values_fill_params ctx ps id pa out (s : State) out' s' :
  place_values_fill evaluate ctx ps id pa out s = (Ok out', s') ->
  NoDup (map fst ps) ->
  forall j p, ps !! j = Some p ->
  exists l (v : Val), out' !! p.1 = Some l /\ heap s' !! l = Some (Computed v) /\
    (mjoin (pa !! (id + j)) = Some v \/
     (mjoin (pa !! (id + j)) = None /\
      exists d s1 s2, p.2 = Some d /\ evaluate ctx d s1 = (Ok v, s2))).
Proof.
  revert id out s. induction ps as [|q ps IH]; intros id out s H Hnd j p Hj; [discriminate|].
  apply place_values_fill_cons_ok in H as (v & s1 & Hv & H).
  simpl in Hnd. apply NoDup_cons in Hnd as [Hq Hnd].
  destruct j as [|j].
  - simpl in Hj. injection Hj as <-. exists (next_loc s1), v. rewrite Nat.add_0_r.
    split; [|split].
    + rewrite (place_values_fill_other _ _ _ _ _ _ _ _ _ H Hq). apply lookup_insert_eq.
    + destruct (place_values_fill_stable _ _ _ _ _ _ _ _ H) as [_ Hs].
      apply Hs; [simpl; lia|simpl; apply lookup_insert_eq|right; eauto].
    + destruct Hv as [[Ha _]|(Ha & d & Hd & He)]; [left; exact Ha|].
      right. split; [exact Ha|]. exists d, s, s1. auto.
  - simpl in Hj. destruct (IH _ _ _ H Hnd j p Hj) as (l & w & Ho & Hc & Hsrc).
    exists l, w. replace (id + S j) with (S id + j) by lia. auto.
Qed.

Lemma place_values_fill_unbound ctx j p ps id pa out (s : State) :
  (forall k, k < j -> exists v, mjoin (pa !! (id + k)) = Some v) ->
  ps !! j = Some p -> mjoin (pa !! (id + j)) = None -> p.2 = None ->
  exists s', place_values_fill evaluate ctx ps id pa out s
             = (Err (FunctionParameterNotBoundInCall p.1), s').
Proof.
  revert j id out s. induction ps as [|q ps IH]; intros j id out s Hpre Hj Hn Hd; [discriminate|].
  destruct j as [|j].
  - simpl in Hj. injection Hj as ->. rewrite Nat.add_0_r in Hn.
    exists s. simpl. rewrite Hn. destruct p as [x d']. simpl in Hd. rewrite Hd. reflexivity.
  - destruct (Hpre 0 ltac:(lia)) as [v Hv]. rewrite Nat.add_0_r in Hv.
    simpl. unfold bind, ret. rewrite Hv. simpl.
    apply (IH j (S id)); [|exact Hj| |exact Hd].
    + intros k Hk. destruct (Hpre (S k) ltac:(lia)) as [w Hw].
      exists w. replace (S id + k) with (id + S k) by lia. exact Hw.
    + replace (S id + j) with (id + S j) by lia. exact Hn.
Qed.

(** [place_args] (the binder of [evaluate_values]) fails with
    [TooManyArgsFunctionHas] when given more values than parameters, before
    anything is allocated; with fewer, if the first parameter left without a
    value has no default, it fails with [FunctionParameterNotBoundInCall] for
    that parameter. *)
Theorem place_args_errors ctx bc (params : ParamsDesc) (args : list Val) (s : State) :
  (List.length params < List.length args ->
   place_args evaluate ctx bc params args s = (Err (TooManyArgsFunctionHas (List.length params)), s)) /\
  (forall p, params !! List.length args = Some p -> p.2 = None ->
   exists s', place_args evaluate ctx bc params args s = (Err (FunctionParameterNotBoundInCall p.1), s')).
Proof.
  split.
  - intros Hlt. unfold place_args, bind, lift.
    rewrite place_values_loop_too_many by lia. reflexivity.
  - intros p Hp Hd.
    assert (Hlt : List.length args < List.length params) by exact (lookup_lt_Some _ _ _ Hp).
    unfold place_args, bind, lift. rewrite place_values_loop_start by lia.
    destruct (place_values_fill_unbound ctx (List.length args) p params 0
                (map Some args ++ replicate (List.length params - List.length args) None) ∅ s)
      as [s' Hs'].
    + intros k Hk. simpl. rewrite placed_lookup by lia. simpl.
      destruct (lookup_lt_is_Some_2 args k Hk) as [v Hv]. exists v. exact Hv.
    + exact Hp.
    + simpl. rewrite placed_lookup by lia. simpl. apply lookup_ge_None_2. lia.
    + exact Hd.
    + exists s'. rewrite Hs'. reflexivity.
Qed.

(** On success [place_args] binds every parameter, in a frame over the
    callee environment (or [ctx] without one), to a computed thunk holding
    either its positional value, or, for a parameter past the values, a
    value of its default evaluated in the caller's context [ctx] (not in the
    callee environment, unlike [parse_function_call]). *)
Theorem place_args_binds ctx bc (params : ParamsDesc) (args : list Val) (s : State) c s' :
  place_args evaluate ctx bc params args s = (Ok c, s') ->
  NoDup (map fst params) ->
  exists out, c = Context_extend (default ctx bc) out /\
    forall i p, params !! i = Some p ->
      exists l (v : Val), out !! p.1 = Some l /\ heap s' !! l = Some (Computed v) /\
        (args !! i = Some v \/
         (args !! i = None /\ exists d s1 s2, p.2 = Some d /\ evaluate ctx d s1 = (Ok v, s2))).
Proof.
  intros H Hnd. unfold place_args, bind, lift in H.
  destruct (Nat.le_gt_cases (List.length args) (List.length params)) as [Hle|Hgt].
  2:{ rewrite place_values_loop_too_many in H by lia. discriminate. }
  rewrite place_values_loop_start in H by exact Hle.
  destruct (place_values_fill evaluate ctx params 0 _ ∅ s) as [[out|e|q] s1] eqn:Hf;
    try discriminate.
  unfold ret in H. injection H as <- <-. exists out. split; [reflexivity|].
  intros i p Hp.
  destruct (place_values_fill_params _ _ _ _ _ _ _ _ Hf Hnd i p Hp) as (l & v & Ho & Hc & Hsrc).
  exists l, v. split; [exact Ho|split; [exact Hc|]].
  pose proof (lookup_lt_Some _ _ _ Hp) as Hi.
  simpl in Hsrc. rewrite placed_lookup in Hsrc; [|exact Hi|exact Hle]. simpl in Hsrc. exact Hsrc.
Qed.

(** *** [parse_function_call_map]: binding named values *)

Lemma position_spec (params : ParamsDesc) name i :
  position params name = Some i -> exists q, params !! i = Some q /\ q.1 = name.
Proof.
  revert i. induction params as [|q ps IH]; intros i; simpl; [discriminate|].
  destruct (String.eqb_spec q.1 name) as [Heq|Hne].
  - intros H. injection H as <-. exists q. auto.
  - destruct (position ps name) as [j|] eqn:Hj; [|discriminate].
    intros H. injection H as <-. exact (IH j eq_refl).
Qed.

Lemma position_None (params : ParamsDesc) name :
  position params name = None -> ~ In name (map fst params).
Proof.
  induction params as [|q ps IH]; simpl; [auto|].
  destruct (String.eqb_spec q.1 name) as [Heq|Hne]; [discriminate|].
  destruct (position ps name); [discriminate|]. intros _ [H|H]; [congruence|exact (IH eq_refl H)].
Qed.

Lemma position_lookup (params : ParamsDesc) i p :
  NoDup (map fst params) -> params !! i = Some p -> position params p.1 = Some i.
Proof.
  revert i. induction params as [|q ps IH]; intros i Hnd Hp; [discriminate|].
  simpl in Hnd. apply NoDup_cons in Hnd as [Hq Hnd].
  destruct i as [|i]; simpl in Hp |- *.
  - injection Hp as <-. rewrite String.eqb_refl. reflexivity.
  - destruct (String.eqb_spec q.1 p.1) as [Heq|Hne].
    + exfalso. apply Hq. rewrite Heq. apply list_elem_of_In, in_map, list_elem_of_In.
      apply list_elem_of_lookup_2 with i. exact Hp.
    + rewrite (IH i Hnd Hp). reflexivity.
Qed.

Lemma arg_lookup_None (args : list (string * Val)) name :
  ~ In name (map fst args) -> arg_lookup args name = None.
Proof.
  induction args as [|[n v] rest IH]; simpl; [reflexivity|].
  intros H. destruct (String.eqb_spec n name) as [->|_]; [exfalso; auto|].
  apply IH. auto.
Qed.

Lemma place_map_loop_outcome (params : ParamsDesc) (args : list (string * Val)) pa :
  List.length pa = List.length params ->
  NoDup (map fst args) ->
  (forall name v idx, In (name, v) args -> position params name = Some idx -> pa !! idx = Some None) ->
  match place_map_loop params args pa with
  | Ok _ => forall name, In name (map fst args) -> In name (map fst params)
  | Err e => exists name, e = UnknownFunctionParameter name /\ In name (map fst args) /\
                          ~ In name (map fst params)
  | Panic _ => False
  end.
Proof.
  revert pa. induction args as [|[name v] rest IH]; intros pa Hlen Hnd Hfree; simpl.
  - intros name [].
  - simpl in Hnd. apply NoDup_cons in Hnd as [Hn Hnd].
    destruct (position params name) as [idx|] eqn:Hpos.
    2:{ exists name. split; [reflexivity|]. split; [left; reflexivity|].
        exact (position_None _ _ Hpos). }
    destruct (position_spec _ _ _ Hpos) as (q & Hq & Hqn).
    pose proof (lookup_lt_Some _ _ _ Hq) as Hlt.
    assert (Hlt' : idx < List.length params) by exact Hlt.
    destruct (Nat.leb_spec (List.length params) idx); [lia|].
    rewrite (Hfree name v idx (or_introl eq_refl) Hpos).
    specialize (IH (<[idx := Some v]> pa)).
    destruct (place_map_loop params rest (<[idx := Some v]> pa)) as [pa'|e|r].
    + intros x [<-|Hx].
      * rewrite <- Hqn. apply in_map, list_elem_of_In.
        apply list_elem_of_lookup_2 with idx. exact Hq.
      * apply IH; [rewrite length_insert; exact Hlen|exact Hnd| |exact Hx].
        intros name' v' idx' Hin Hpos'. rewrite list_lookup_insert_ne.
        -- exact (Hfree name' v' idx' (or_intror Hin) Hpos').
        -- intros <-. destruct (position_spec _ _ _ Hpos') as (q' & Hq' & Hqn').
           rewrite Hq in Hq'. injection Hq' as <-. apply Hn. rewrite Hqn in Hqn'.
           rewrite Hqn'. apply list_elem_of_In, (in_map fst rest (name', v')). exact Hin.
    + destruct IH as (x & -> & Hx & Hnx).
      * rewrite length_insert. exact Hlen.
      * exact Hnd.
      * intros name' v' idx' Hin Hpos'. rewrite list_lookup_insert_ne.
        -- exact (Hfree name' v' idx' (or_intror Hin) Hpos').
        -- intros <-. destruct (position_spec _ _ _ Hpos') as (q' & Hq' & Hqn').
           rewrite Hq in Hq'. injection Hq' as <-. apply Hn. rewrite Hqn in Hqn'.
           rewrite Hqn'. apply list_elem_of_In, (in_map fst rest (name', v')). exact Hin.
      * exists x. split; [reflexivity|]. split; [right; exact Hx|exact Hnx].
    + apply IH; [rewrite length_insert; exact Hlen|exact Hnd|].
      intros name' v' idx' Hin Hpos'. rewrite list_lookup_insert_ne.
      * exact (Hfree name' v' idx' (or_intror Hin) Hpos').
      * intros <-. destruct (position_spec _ _ _ Hpos') as (q' & Hq' & Hqn').
        rewrite Hq in Hq'. injection Hq' as <-. apply Hn. rewrite Hqn in Hqn'.
        rewrite Hqn'. apply list_elem_of_In, (in_map fst rest (name', v')). exact Hin.
Qed.

Lemma place_map_loop_outcome_init (params : ParamsDesc) (args : list (string * Val)) :
  NoDup (map fst args) ->
  match place_map_loop params args (replicate (List.length params) None) with
  | Ok _ => forall name, In name (map fst args) -> In name (map fst params)
  | Err e => exists name, e = UnknownFunctionParameter name /\ In name (map fst args) /\
                          ~ In name (map fst params)
  | Panic _ => False
  end.
Proof.
  intros Hnd. apply place_map_loop_outcome; [apply length_replicate|exact Hnd|].
  intros name v idx _ Hpos. destruct (position_spec _ _ _ Hpos) as (q & Hq & _).
  apply lookup_replicate_2. exact (lookup_lt_Some _ _ _ Hq).
Qed.

(** The placement loop of [parse_function_call_map], on the [HashMap] of
    named values (whose keys are distinct), never reports
    [TooManyArgsFunctionHas] or [BindingParameterASecondTime], and never
    panics: it fails exactly when some key names no parameter, with
    [UnknownFunctionParameter] for such a key. *)
Theorem place_map_loop_errors (params : ParamsDesc) (args : list (string * Val)) :
  NoDup (map fst args) ->
  match place_map_loop params args (replicate (List.length params) None) with
  | Ok _ => forall name, In name (map fst args) -> In name (map fst params)
  | Err e => exists name, e = UnknownFunctionParameter name /\ In name (map fst args) /\
                          ~ In name (map fst params)
  | Panic _ => False
  end.
Proof. apply place_map_loop_outcome_init. Qed.

Lemma place_map_loop_slots (params : ParamsDesc) (args : list (string * Val)) pa pa' :
  NoDup (map fst params) -> NoDup (map fst args) -> List.length pa = List.length params ->
  place_map_loop params args pa = Ok pa' ->
  forall i p, params !! i = Some p ->
    mjoin (pa' !! i) = match arg_lookup args p.1 with Some v => Some v | None => mjoin (pa !! i) end.
Proof.
  intros Hndp. revert pa. induction args as [|[name v] rest IH]; intros pa Hnd Hlen H i p Hp;
    simpl in H |- *.
  - injection H as <-. reflexivity.
  - simpl in Hnd. apply NoDup_cons in Hnd as [Hn Hnd].
    destruct (position params name) as [idx|] eqn:Hpos; [|discriminate].
    destruct (position_spec _ _ _ Hpos) as (q & Hq & Hqn).
    pose proof (lookup_lt_Some _ _ _ Hq) as Hlt.
    assert (Hlt' : idx < List.length params) by exact Hlt.
    destruct (Nat.leb_spec (List.length params) idx); [lia|].
    assert (Hrec : mjoin (pa' !! i) = match arg_lookup rest p.1 with
                                      | Some w => Some w
                                      | None => mjoin (<[idx := Some v]> pa !! i) end).
    { destruct (pa !! idx) as [[w|]|]; [discriminate| |];
        (apply (IH _ Hnd); [rewrite length_insert; exact Hlen|exact H|exact Hp]). }
    rewrite Hrec. destruct (String.eqb_spec name p.1) as [Heq|Hne].
    + rewrite arg_lookup_None by (rewrite <- Heq; rewrite <- list_elem_of_In; exact Hn).
      rewrite Heq in Hpos. rewrite (position_lookup _ _ _ Hndp Hp) in Hpos.
      injection Hpos as ->.
      rewrite list_lookup_insert_eq by lia. reflexivity.
    + rewrite list_lookup_insert_ne; [reflexivity|].
      intros ->. rewrite Hp in Hq. injection Hq as <-. congruence.
Qed.

Lemma map_bound_stable bc ts a p l (s s' : State) :
  map_bound bc ts a p l s -> N.lt l (next_loc s) -> stable ts s s' -> map_bound bc ts a p l s'.
Proof.
  intros Hb Hl [_ Hs]. destruct a as [v|]; simpl in *.
  - apply Hs; [exact Hl|exact Hb|]. destruct ts; [right; eauto|left; reflexivity].
  - destruct Hb as (d & Hd & Hb). exists d. split; [exact Hd|]. destruct ts.
    + destruct Hb as (c & v & s1 & s2 & Hc & He & Hh). exists c, v, s1, s2.
      split; [exact Hc|split; [exact He|]]. apply Hs; [exact Hl|exact Hh|right; eauto].
    + apply Hs; [exact Hl|exact Hb|left; reflexivity].
Qed.

Lemma map_param_value_spec bc ts pa id p (s : State) l s1 :
  map_param_value evaluate default_closure bc ts pa id p s = (Ok l, s1) ->
  stable ts s s1 /\ N.lt l (next_loc s1) /\ map_bound bc ts (mjoin (pa !! id)) p l s1.
Proof.
  unfold map_param_value. destruct (mjoin (pa !! id)) as [a|].
  - intros H. unfold LazyVal_new_resolved in H.
    pose proof H as H'. apply alloc_spec in H' as (-> & Hn & _).
    apply (alloc_stable ts) in H as [Hst Hc]. split; [exact Hst|split; [lia|exact Hc]].
  - destruct p as [x [d|]]; simpl; [|discriminate].
    destruct ts.
    + destruct bc as [c|]; [|discriminate].
      unfold bind. destruct (evaluate c d s) as [[v|e|q] s2] eqn:He; try discriminate.
      intros H. unfold LazyVal_new_resolved in H.
      pose proof H as H'. apply alloc_spec in H' as (-> & Hn & _).
      apply (alloc_stable true) in H as [Hst Hc].
      split; [exact (stable_trans _ _ _ _ (evaluate_stable _ _ _ _ _ He) Hst)|].
      split; [lia|]. exists d. split; [reflexivity|]. exists c, v, s, s2. auto.
    + intros H. unfold LazyVal_new in H.
      pose proof H as H'. apply alloc_spec in H' as (-> & Hn & _).
      apply (alloc_stable false) in H as [Hst Hc].
      split; [exact Hst|split; [lia|]]. exists d. split; [reflexivity|exact Hc].
Qed.

Lemma fill_map_loop_cons_ok bc ts p ps id pa out (s : State) out' s' :
  fill_map_loop evaluate default_closure bc ts (p :: ps) id pa out s = (Ok out', s') ->
  exists l s1, map_param_value evaluate default_closure bc ts pa id p s = (Ok l, s1) /\
    fill_map_loop evaluate default_closure bc ts ps (S id) pa (<[p.1 := l]> out) s1 = (Ok out', s').
Proof.
  simpl. unfold bind.
  destruct (map_param_value evaluate default_closure bc ts pa id p s) as [[l|e|q] s1];
    try discriminate.
  intros H. exists l, s1. auto.
Qed.

Lemma fill_map_loop_stable bc ts ps id pa out (s : State) out' s' :
  fill_map_loop evaluate default_closure bc ts ps id pa out s = (Ok out', s') -> stable ts s s'.
Proof.
  revert id out s. induction ps as [|p ps IH]; intros id out s H.
  - simpl in H. unfold ret in H. injection H as <- <-. apply stable_refl.
  - apply fill_map_loop_cons_ok in H as (l & s1 & Hv & H).
    apply map_param_value_spec in Hv as (Hst & _).
    exact (stable_trans _ _ _ _ Hst (IH _ _ _ H)).
Qed.

Lemma fill_map_loop_other bc ts ps id pa out (s : State) out' s' x :
  fill_map_loop evaluate default_closure bc ts ps id pa out s = (Ok out', s') ->
  x ∉ map fst ps -> out' !! x = out !! x.
Proof.
  revert id out s. induction ps as [|p ps IH]; intros id out s H Hx.
  - simpl in H. unfold ret in H. injection H as <- <-. reflexivity.
  - apply fill_map_loop_cons_ok in H as (l & s1 & _ & H).
    simpl in Hx. apply not_elem_of_cons in Hx as [Hx1 Hx2].
    rewrite (IH _ _ _ H Hx2). apply lookup_insert_ne. congruence.
Qed.

Lemma fill_map_loop_params bc ts ps id pa out (s : State) out' s' :
  fill_map_loop evaluate default_closure bc ts ps id pa out s = (Ok out', s') ->
  NoDup (map fst ps) ->
  forall j p, ps !! j = Some p ->
  exists l, out' !! p.1 = Some l /\ map_bound bc ts (mjoin (pa !! (id + j))) p l s'.
Proof.
  revert id out s. induction ps as [|q ps IH]; intros id out s H Hnd j p Hj; [discriminate|].
  apply fill_map_loop_cons_ok in H as (l & s1 & Hv & H).
  simpl in Hnd. apply NoDup_cons in Hnd as [Hq Hnd].
  destruct j as [|j].
  - simpl in Hj. injection Hj as <-. exists l. rewrite Nat.add_0_r.
    apply map_param_value_spec in Hv as (_ & Hlt & Hb). split.
    + rewrite (fill_map_loop_other _ _ _ _ _ _ _ _ _ _ H Hq). apply lookup_insert_eq.
    + eapply map_bound_stable; [exact Hb|exact Hlt|]. eapply fill_map_loop_stable. exact H.
  - simpl in Hj. destruct (IH _ _ _ H Hnd j p Hj) as (l' & Ho & Hb).
    exists l'. replace (id + S j) with (S id + j) by lia. auto.
Qed.

Lemma parse_function_call_map_bound ctx bc (params : ParamsDesc)
    (args : list (string * Val)) ts (s : State) c s' :
  parse_function_call_map evaluate default_closure ctx bc params args ts s = (Ok c, s') ->
  NoDup (map fst params) -> NoDup (map fst args) ->
  exists out, c = Context_extend (default ctx bc) out /\
    forall i p, params !! i = Some p ->
      exists l, out !! p.1 = Some l /\ map_bound bc ts (arg_lookup args p.1) p l s'.
Proof.
  intros H Hndp Hnda. unfold parse_function_call_map, bind, lift in H.
  destruct (place_map_loop params args (replicate (List.length params) None)) as [pa|e|q]
    eqn:Hpl; try discriminate.
  destruct (fill_map_loop evaluate default_closure bc ts params 0 pa ∅ s) as [[out|e|q] s1] eqn:Hf;
    try discriminate.
  unfold ret in H. injection H as <- <-. exists out. split; [reflexivity|].
  intros i p Hp.
  destruct (fill_map_loop_params _ _ _ _ _ _ _ _ _ Hf Hndp i p Hp) as (l & Ho & Hb).
  exists l. split; [exact Ho|]. simpl in Hb.
  rewrite (place_map_loop_slots _ _ _ _ Hndp Hnda (length_replicate _ _) Hpl i p Hp) in Hb.
  rewrite lookup_replicate_2 in Hb by exact (lookup_lt_Some _ _ _ Hp).
  destruct (arg_lookup args p.1); exact Hb.
Qed.

Lemma map_param_value_lazy_ok bc pa id p (s : State) :
  (mjoin (pa !! id) = None -> p.2 <> None) ->
  exists l s1, map_param_value evaluate default_closure bc false pa id p s = (Ok l, s1).
Proof.
  intros H. unfold map_param_value. destruct (mjoin (pa !! id)) as [a|].
  - eexists _, _. reflexivity.
  - destruct p as [x [d|]]; simpl in *; [|exfalso; exact (H eq_refl eq_refl)].
    eexists _, _. reflexivity.
Qed.

Lemma fill_map_loop_lazy_ok bc ps id pa out (s : State) :
  (forall k p, ps !! k = Some p -> mjoin (pa !! (id + k)) = None -> p.2 <> None) ->
  exists out' s', fill_map_loop evaluate default_closure bc false ps id pa out s = (Ok out', s').
Proof.
  revert id out s. induction ps as [|p ps IH]; intros id out s H.
  - eexists _, _. reflexivity.
  - destruct (map_param_value_lazy_ok bc pa id p s) as (l & s1 & Hv).
    { rewrite <- (Nat.add_0_r id). exact (H 0 p eq_refl). }
    simpl. unfold bind. rewrite Hv.
    apply IH. intros k q Hq. replace (S id + k) with (id + S k) by lia. exact (H (S k) q Hq).
Qed.

(** On success, with distinct parameter names, [parse_function_call_map]
    binds every parameter, in a frame over the callee environment (or [ctx]
    without one): to a computed thunk of its named value when the map has
    one (never evaluated again, even without tail-strictness); else to a
    computed value of its default evaluated in the callee environment under
    tail-strict binding, or to a thunk waiting on [default_closure] for it. *)
Theorem parse_function_call_map_binds ctx bc (params : ParamsDesc)
    (args : list (string * Val)) ts (s : State) c s' :
  parse_function_call_map evaluate default_closure ctx bc params args ts s = (Ok c, s') ->
  NoDup (map fst params) -> NoDup (map fst args) ->
  exists out, c = Context_extend (default ctx bc) out /\
    forall i p, params !! i = Some p ->
      exists l, out !! p.1 = Some l /\ map_bound bc ts (arg_lookup args p.1) p l s'.
Proof. apply parse_function_call_map_bound. Qed.

(** Without a callee environment and without tail-strictness,
    [parse_function_call_map] still succeeds when every named value names a
    parameter and every parameter left without one has a default; the thunk
    it binds for such a default panics with [NO_DEFAULT_CONTEXT] when
    forced: the [expect] is deferred into the closure. *)
Theorem parse_function_call_map_deferred_panic ctx (params : ParamsDesc)
    (args : list (string * Val)) (s : State) :
  NoDup (map fst params) -> NoDup (map fst args) ->
  (forall name, In name (map fst args) -> In name (map fst params)) ->
  (forall i p, params !! i = Some p -> arg_lookup args p.1 = None -> p.2 <> None) ->
  exists c s',
    parse_function_call_map evaluate default_closure ctx None params args false s = (Ok c, s') /\
    forall i p, params !! i = Some p -> arg_lookup args p.1 = None ->
      exists l, Context_binding c p.1 = Ok l /\ force l s' = (Panic NO_DEFAULT_CONTEXT, s').
Proof.
  intros Hndp Hnda Hkeys Hdef.
  pose proof (place_map_loop_outcome_init params args Hnda) as Hpl.
  destruct (place_map_loop params args (replicate (List.length params) None)) as [pa|e|r]
    eqn:Hplace; [| |contradiction].
  2:{ destruct Hpl as (x & _ & Hx & Hnx). exfalso. exact (Hnx (Hkeys x Hx)). }
  pose proof (place_map_loop_slots _ _ _ _ Hndp Hnda (length_replicate _ _) Hplace) as Hslot.
  destruct (fill_map_loop_lazy_ok None params 0 pa ∅ s) as (out & s' & Hf).
  { intros k q Hq Hk. simpl in Hk. rewrite (Hslot k q Hq) in Hk.
    rewrite lookup_replicate_2 in Hk by exact (lookup_lt_Some _ _ _ Hq).
    apply (Hdef k q Hq). destruct (arg_lookup args q.1); [discriminate|reflexivity]. }
  assert (H : parse_function_call_map evaluate default_closure ctx None params args false s
              = (Ok (Context_extend (default ctx None) out), s')).
  { unfold parse_function_call_map, bind, lift. rewrite Hplace, Hf. reflexivity. }
  exists (Context_extend (default ctx None) out), s'. split; [exact H|].
  intros i p Hp Hn.
  destruct (parse_function_call_map_bound _ _ _ _ _ _ _ _ H Hndp Hnda) as (out' & Hc & Hall).
  rewrite Hc. destruct (Hall i p Hp) as (l & Ho & Hb). rewrite Hn in Hb. simpl in Hb.
  destruct Hb as (d & _ & Hh). exists l. split.
  - simpl. rewrite Ho. reflexivity.
  - unfold LazyVal_evaluate. rewrite Hh. simpl. rewrite default_closure_run. reflexivity.
Qed.

Lemma fill_map_loop_prefix bc ts j p ps id pa out (s : State) :
  (forall k, k < j -> exists v, mjoin (pa !! (id + k)) = Some v) -> ps !! j = Some p ->
  exists out1 s1,
    fill_map_loop evaluate default_closure bc ts ps id pa out s
    = fill_map_loop evaluate default_closure bc ts (p :: drop (S j) ps) (id + j) pa out1 s1.
Proof.
  revert j id out s. induction ps as [|q ps IH]; intros j id out s Hpre Hj; [discriminate|].
  destruct j as [|j].
  - simpl in Hj. injection Hj as ->. exists out, s. rewrite Nat.add_0_r. reflexivity.
  - destruct (Hpre 0 ltac:(lia)) as [v Hv]. rewrite Nat.add_0_r in Hv.
    simpl. unfold bind. unfold map_param_value at 1. rewrite Hv. simpl.
    destruct (IH j (S id) (<[q.1 := next_loc s]> out)
                {| heap := <[next_loc s := Computed v]> (heap s); next_loc := N.succ (next_loc s) |})
      as (out1 & s1 & Heq).
    + intros k Hk. destruct (Hpre (S k) ltac:(lia)) as [w Hw].
      exists w. replace (S id + k) with (id + S k) by lia. exact Hw.
    + exact Hj.
    + exists out1, s1. rewrite Heq. replace (S id + j) with (id + S j) by lia. reflexivity.
Qed.

(** When every named value names a parameter (so placement succeeds), the
    first parameter left without a named value decides the outcome if it has
    no usable default: with no default at all [parse_function_call_map] fails
    with [FunctionParameterNotBoundInCall] for it; with a default, under
    tail-strict binding and without a callee environment, it panics with
    [NO_DEFAULT_CONTEXT]. *)
Theorem parse_function_call_map_missing ctx bc (params : ParamsDesc)
    (args : list (string * Val)) ts (s : State) j p :
  NoDup (map fst params) -> NoDup (map fst args) ->
  (forall name, In name (map fst args) -> In name (map fst params)) ->
  (forall k q, k < j -> params !! k = Some q -> arg_lookup args q.1 <> None) ->
  params !! j = Some p -> arg_lookup args p.1 = None ->
  (p.2 = None -> exists s',
     parse_function_call_map evaluate default_closure ctx bc params args ts s
     = (Err (FunctionParameterNotBoundInCall p.1), s')) /\
  (forall d, p.2 = Some d -> ts = true -> bc = None -> exists s',
     parse_function_call_map evaluate default_closure ctx bc params args ts s
     = (Panic NO_DEFAULT_CONTEXT, s')).
Proof.
  intros Hndp Hnda Hkeys Hpre Hp Hn.
  pose proof (place_map_loop_outcome_init params args Hnda) as Hpl.
  destruct (place_map_loop params args (replicate (List.length params) None)) as [pa|e|r]
    eqn:Hplace; [| |contradiction].
  2:{ destruct Hpl as (x & _ & Hx & Hnx). exfalso. exact (Hnx (Hkeys x Hx)). }
  pose proof (place_map_loop_slots _ _ _ _ Hndp Hnda (length_replicate _ _) Hplace) as Hslot.
  assert (Hfill : forall s0 : State, exists out1 s1,
            fill_map_loop evaluate default_closure bc ts params 0 pa ∅ s0
            = fill_map_loop evaluate default_closure bc ts (p :: drop (S j) params) j pa out1 s1).
  { intros s0. apply fill_map_loop_prefix; [|exact Hp].
    intros k Hk. simpl.
    assert (Hjl : j < List.length params) by exact (lookup_lt_Some _ _ _ Hp).
    destruct (lookup_lt_is_Some_2 params k ltac:(lia)) as [q Hq].
    rewrite (Hslot k q Hq). specialize (Hpre k q Hk Hq).
    destruct (arg_lookup args q.1) as [v|]; [exists v; reflexivity|congruence]. }
  assert (Hj : mjoin (pa !! j) = None).
  { rewrite (Hslot j p Hp), Hn. rewrite lookup_replicate_2 by exact (lookup_lt_Some _ _ _ Hp).
    reflexivity. }
  destruct (Hfill s) as (out1 & s1 & Hf).
  unfold parse_function_call_map, bind, lift. rewrite Hplace, Hf. simpl. unfold bind.
  unfold map_param_value. rewrite Hj. split.
  - intros Hd. rewrite Hd. exists s1. reflexivity.
  - intros d Hd -> ->. rewrite Hd. exists s1. reflexivity.
Qed.

Lemma force_params_computed (c : Context) (ps : ParamsDesc) (s : State) :
  Forall (fun p : Param LocExpr => exists l (v : Val),
            Context_binding c p.1 = Ok l /\ heap s !! l = Some (Computed v)) ps ->
  exists vs, force_params evaluate host_run c ps s = (Ok vs, s) /\
    List.length vs = List.length ps /\
    forall i p, ps !! i = Some p ->
      exists l v, Context_binding c p.1 = Ok l /\ heap s !! l = Some (Computed v) /\
                  vs !! i = Some v.
Proof.
  induction ps as [|p ps IH]; intros Hall.
  - exists []. split; [reflexivity|]. split; [reflexivity|]. intros i p Hp. discriminate.
  - apply Forall_cons in Hall as [(l & v & Hb & Hh) Hall].
    destruct (IH Hall) as (vs & Hf & Hlen & Hvs).
    exists (v :: vs). split; [|split].
    + simpl. unfold bind, lift. rewrite Hb. unfold LazyVal_evaluate. rewrite Hh.
      rewrite Hf. reflexivity.
    + simpl. rewrite Hlen. reflexivity.
    + intros [|i] q Hq; simpl in Hq.
      * injection Hq as <-. exists l, v. auto.
      * exact (Hvs i q Hq).
Qed.

(** A native extension, once its parameters are bound (always tail-strict,
    whatever the call asks), is called with one value per parameter, in
    parameter order, each the computed value of that parameter's thunk in
    the frame; reading them back evaluates nothing more, so the handler runs
    in the state the binder left. *)
Theorem FuncVal_evaluate_native name (h : NativeCallback LocExpr NativeHandler)
    call_ctx (args : ArgsDesc) tailstrict (s : State) c s1 :
  bind_call call_ctx None (nc_params h) args true s = (Ok c, s1) ->
  NoDup (map fst (nc_params h)) ->
  exists vs, List.length vs = List.length (nc_params h) /\
    (forall i p, nc_params h !! i = Some p ->
       exists l v, Context_binding c p.1 = Ok l /\ heap s1 !! l = Some (Computed v) /\
                   vs !! i = Some v) /\
    FuncVal_evaluate evaluate host_run call_builtin native_call (NativeExt name h)
      call_ctx args tailstrict s = native_call (nc_handler h) vs s1.
Proof.
  intros H Hnd.
  pose proof H as H'. apply parse_function_call_ok in H' as (pos & out & _ & Hf & ->).
  destruct (force_params_computed (Context_extend (default call_ctx None) out) (nc_params h) s1)
    as (vs & Hfp & Hlen & Hvs).
  - apply Forall_lookup. intros i p Hp.
    destruct (fill_params _ _ _ _ _ _ _ _ _ _ Hf Hnd i p Hp) as (ce & l & _ & Ho & Hc).
    simpl in Hc. destruct Hc as (v & _ & _ & _ & Hh).
    exists l, v. split; [simpl; rewrite Ho; reflexivity|exact Hh].
  - exists vs. split; [exact Hlen|]. split; [exact Hvs|].
    simpl. unfold bind. rewrite H, Hfp. reflexivity.
Qed.

End Properties.

(** ** Instances *)

Import Sample.

Lemma sample_evaluate_evolves c e s r s' :
  sample_evaluate c e s = (r, s') ->
  keeps_computed nat unit unit unit s s' /\ N.le (next_loc s) (next_loc s').
Proof.
  unfold sample_evaluate. intros H.
  destruct e; injection H as _ <-; (split; [intros l v Hv; exact Hv|lia]).
Qed.

Lemma sample_host_run_evolves h s r s' :
  sample_host_run h s = (r, s') ->
  keeps_computed nat unit unit unit s s' /\ N.le (next_loc s) (next_loc s').
Proof.
  unfold sample_host_run. intros H. injection H as _ <-.
  split; [intros l v Hv; exact Hv|lia].
Qed.

Lemma NoDup_params_ab : NoDup (List.map fst params_ab).
Proof.
  apply NoDup_cons. split; [|apply NoDup_cons; split; [|apply NoDup_nil_2]];
    simpl; set_solver.
Qed.

(** C2 at [function(a, b=2)] called with one argument, non tail-strict: [b]
    is bound to a thunk of [2] in the callee's context. *)
Lemma parse_function_call_body_ctx_witness :
  exists c s',
    parse_function_call sample_evaluate [] (Some [{[ "z" := 7%N ]}]) params_ab args_3 false s0
    = (Ok c, s') /\
    NoDup (List.map fst params_ab) /\
    exists pos out,
      place_args_loop params_ab 0 args_3 (replicate (List.length params_ab) None) = Ok pos /\
      c = Context_extend [{[ "z" := 7%N ]}] out /\
      (forall i p d, params_ab !! i = Some p -> pos !! i = Some None -> p.2 = Some d ->
         exists l, out !! p.1 = Some l /\
           bound_cell nat unit unit unit sample_evaluate false ([{[ "z" := 7%N ]}], d) l s').
Proof.
  destruct (parse_function_call sample_evaluate [] (Some [{[ "z" := 7%N ]}]) params_ab args_3 false s0)
    as [[c|e|q] s'] eqn:H; [|vm_compute in H; discriminate H|vm_compute in H; discriminate H].
  exists c, s'. split; [reflexivity|]. split; [exact NoDup_params_ab|].
  exact (parse_function_call_body_ctx nat unit unit unit sample_evaluate
           sample_evaluate_evolves [] [{[ "z" := 7%N ]}] params_ab args_3 false s0 c s'
           H NoDup_params_ab).
Defined.

(** C3 at the thunk of [s_thunk]. *)
Lemma LazyVal_evaluate_memo_witness :
  heap s_thunk !! 0%N = Some (Waiting (EvalIn [] 1)) /\
  (forall v s1,
     run_lazy_fn sample_evaluate sample_host_run (EvalIn [] 1) s_thunk = (Ok v, s1) ->
     LazyVal_evaluate sample_evaluate sample_host_run 0%N s_thunk
       = (Ok v, set_cell 0%N (Computed v) s1) /\
     heap (set_cell 0%N (Computed v) s1) !! 0%N = Some (Computed v) /\
     (forall s2, heap s2 !! 0%N = Some (Computed v) ->
        LazyVal_evaluate sample_evaluate sample_host_run 0%N s2 = (Ok v, s2))) /\
  (forall e s1,
     run_lazy_fn sample_evaluate sample_host_run (EvalIn [] 1) s_thunk = (Err e, s1) ->
     LazyVal_evaluate sample_evaluate sample_host_run 0%N s_thunk = (Err e, s1) /\
     (heap s1 !! 0%N = heap s_thunk !! 0%N ->
        heap s1 !! 0%N = Some (Waiting (EvalIn [] 1)) /\
        LazyVal_evaluate sample_evaluate sample_host_run 0%N s1
        = (let (r, s2) := run_lazy_fn sample_evaluate sample_host_run (EvalIn [] 1) s1 in
           match r with
           | Ok v => (Ok v, set_cell 0%N (Computed v) s2)
           | Err e => (Err e, s2)
           | Panic p => (Panic p, s2)
           end))).
Proof.
  assert (H : heap s_thunk !! 0%N = Some (Waiting (EvalIn [] 1))) by reflexivity.
  split; [exact H|].
  exact (LazyVal_evaluate_memo nat unit unit unit sample_evaluate sample_host_run
           0%N (EvalIn [] 1) s_thunk H).
Defined.

(** C4 at [function(a, b=2)] called with one argument, tail-strict: both
    bindings are computed. *)
Lemma parse_function_call_tailstrict_witness :
  exists c s',
    parse_function_call sample_evaluate [] (Some []) params_ab args_3 true s0 = (Ok c, s') /\
    exists out,
      c = Context_extend [] out /\
      (forall x l, out !! x = Some l -> exists v, heap s' !! l = Some (Computed v)).
Proof.
  destruct (parse_function_call sample_evaluate [] (Some []) params_ab args_3 true s0)
    as [[c|e|q] s'] eqn:H; [|vm_compute in H; discriminate H|vm_compute in H; discriminate H].
  exists c, s'. split; [reflexivity|].
  exact (parse_function_call_tailstrict nat unit unit unit sample_evaluate
           sample_evaluate_evolves [] (Some []) params_ab args_3 true s0 c s' H).
Defined.

(** C5, against the claim: a value that is not an array fails under
    [YamlStream (YamlStream (Json 0))] with [StreamManifestOutputIsNotAArray],
    not with [StreamManifestOutputCannotBeRecursed]. *)
Lemma manifest_stream_nesting_counterexample :
  manifest sample_evaluate sample_host_run sample_manifest_json_ex sample_to_yaml Null
    (ManifestFormat.YamlStream (ManifestFormat.YamlStream (ManifestFormat.Json 0))) s0
  = (Err StreamManifestOutputIsNotAArray, s0) /\
  StreamManifestOutputIsNotAArray <> StreamManifestOutputCannotBeRecursed.
Proof. split; [reflexivity|discriminate]. Qed.

(** C6 under [YamlStream (Json 0)]. *)
Lemma manifest_yaml_stream_witness :
  nests_in_stream (ManifestFormat.Json 0) = true /\
  (forall a ms s',
     stream_docs nat unit unit unit sample_evaluate sample_host_run sample_manifest_json_ex
       sample_to_yaml a (ManifestFormat.Json 0) (seq 0 (ArrValue_len a)) s0 ms s' ->
     manifest sample_evaluate sample_host_run sample_manifest_json_ex sample_to_yaml
       (Arr a) (ManifestFormat.YamlStream (ManifestFormat.Json 0)) s0
     = (Ok (yaml_stream_text ms), s')) /\
  (forall a, ArrValue_len a = 0 ->
     manifest sample_evaluate sample_host_run sample_manifest_json_ex sample_to_yaml
       (Arr a) (ManifestFormat.YamlStream (ManifestFormat.Json 0)) s0 = (Ok "", s0)) /\
  (forall v : Val nat unit unit, match v with
     | Arr _ => True
     | _ => manifest sample_evaluate sample_host_run sample_manifest_json_ex sample_to_yaml
              v (ManifestFormat.YamlStream (ManifestFormat.Json 0)) s0
            = (Err StreamManifestOutputIsNotAArray, s0)
     end).
Proof.
  assert (H : nests_in_stream (ManifestFormat.Json 0) = true) by reflexivity.
  split; [exact H|].
  exact (manifest_yaml_stream nat unit unit unit sample_evaluate sample_host_run
           sample_manifest_json_ex sample_to_yaml (ManifestFormat.Json 0) s0 H).
Defined.

(** C7, against the claim: a function compared with [null] is unequal, no
    error is raised. *)
Lemma equals_function_null_counterexample :
  equals sample_evaluate sample_host_run sample_visible_fields sample_obj_get 64
    (Func (Intrinsic "id")) Null s0 = (Ok false, s0).
Proof. reflexivity. Qed.

(** C8, against the claim: an array holding a function is not a function,
    yet comparing it with itself fails with the function-comparison error. *)
Lemma equals_array_of_function_counterexample :
  equals sample_evaluate sample_host_run sample_visible_fields sample_obj_get 64
    (Arr (Eager [Func (Intrinsic "id")])) (Arr (Eager [Func (Intrinsic "id")])) s0
  = (Err (RuntimeError "cannot test equality of functions"), s0).
Proof. reflexivity. Qed.

(** C8 at [[1.5, [t], {k: null}]], where [t] is the thunk of [s_thunk],
    still waiting: the comparison runs it once and caches ["v"]. *)
Lemma equals_refl_settles_witness :
  settles nat unit unit unit sample_evaluate sample_host_run sample_visible_fields
    sample_obj_get 2 (Arr (Eager [Num 1.5%float; Arr (Lazy [0%N]); Obj tt])) s_thunk
    (snd (LazyVal_evaluate sample_evaluate sample_host_run 0%N s_thunk)) /\
  2 < 64 /\
  equals sample_evaluate sample_host_run sample_visible_fields sample_obj_get 64
    (Arr (Eager [Num 1.5%float; Arr (Lazy [0%N]); Obj tt]))
    (Arr (Eager [Num 1.5%float; Arr (Lazy [0%N]); Obj tt])) s_thunk
  = (Ok true, snd (LazyVal_evaluate sample_evaluate sample_host_run 0%N s_thunk)).
Proof.
  assert (Hs : settles nat unit unit unit sample_evaluate sample_host_run sample_visible_fields
                 sample_obj_get 2 (Arr (Eager [Num 1.5%float; Arr (Lazy [0%N]); Obj tt])) s_thunk
                 (snd (LazyVal_evaluate sample_evaluate sample_host_run 0%N s_thunk))).
  { apply settles_eager.
    eapply chain_cons; [apply settles_num; reflexivity|].
    eapply chain_cons.
    { apply settles_lazy. eapply chain_cons; [|apply chain_nil].
      exists (Str "v"), (snd (LazyVal_evaluate sample_evaluate sample_host_run 0%N s_thunk)).
      split; [reflexivity|apply settles_str]. }
    eapply chain_cons; [|apply chain_nil].
    apply settles_obj. simpl. eapply chain_cons; [|apply chain_nil].
    eexists Null, _, _. split; [reflexivity|]. split; [reflexivity|apply settles_null]. }
  assert (Hlt : 2 < 64) by lia.
  split; [exact Hs|]. split; [lia|].
  exact (equals_refl_settles nat unit unit unit sample_evaluate sample_host_run
           sample_visible_fields sample_obj_get _ s_thunk _ 2 64 Hs Hlt).
Defined.

(** C9 at the lazy array of the thunk of [s_thunk] and the eager array of
    ["v"]. *)
Lemma ArrValue_lazy_eager_witness :
  Forall2 (forces_to nat unit unit unit sample_evaluate sample_host_run s_thunk)
    [0%N] [Str "v"] /\
  (forall i,
     fst (ArrValue_get sample_evaluate sample_host_run (Lazy [0%N]) i s_thunk)
     = fst (ArrValue_get sample_evaluate sample_host_run (Eager [Str "v"]) i s_thunk) /\
     fst (ArrValue_get sample_evaluate sample_host_run (Eager [Str "v"]) i s_thunk)
     = Ok ([Str "v"] !! i)) /\
  (forall vs' s',
     ArrValue_evaluated sample_evaluate sample_host_run (Lazy [0%N]) s_thunk = (Ok vs', s') ->
     Forall2 (fun l v => heap s' !! l = Some (Computed v)) [0%N] vs' /\
     forall i, ArrValue_get sample_evaluate sample_host_run (Lazy [0%N]) i s'
               = ArrValue_get sample_evaluate sample_host_run (Eager vs') i s').
Proof.
  assert (HF : Forall2 (forces_to nat unit unit unit sample_evaluate sample_host_run s_thunk)
                 [0%N] [Str "v"]).
  { apply List.Forall2_cons; [|apply List.Forall2_nil].
    right. exists (EvalIn [] 1), s_thunk. split; reflexivity. }
  destruct (ArrValue_lazy_eager nat unit unit unit sample_evaluate sample_host_run
              sample_evaluate_evolves sample_host_run_evolves [0%N] [Str "v"] s_thunk)
    as [H1 H2].
  split; [exact HF|]. split; [exact (H1 HF)|exact H2].
Defined.

(** C10 at [function(a=2)] called with no argument and no callee context,
    directly and as a native extension. *)
Lemma parse_function_call_no_body_ctx_witness :
  place_args_loop params_a_default 0 [] (replicate (List.length params_a_default) None)
    = Ok [None] /\
  params_a_default !! 0 = Some ("a", Some 2) /\
  [None] !! 0 = Some (@None nat) /\
  ("a", Some 2).2 = Some 2 /\
  fill_defaults_loop sample_evaluate [] None true (take 0 params_a_default) 0 [None] ∅ s0
    = (Ok ∅, s0) /\
  parse_function_call sample_evaluate [] None params_a_default [] true s0
    = (Panic NO_DEFAULT_CONTEXT, s0) /\
  FuncVal_evaluate sample_evaluate sample_host_run sample_call_builtin sample_native_call
    (NativeExt "f" {| nc_params := params_a_default; nc_handler := tt |}) [] [] false s0
  = (Panic NO_DEFAULT_CONTEXT, s0).
Proof.
  assert (H1 : place_args_loop params_a_default 0 [] (replicate (List.length params_a_default) None)
               = Ok [None]) by reflexivity.
  assert (H2 : params_a_default !! 0 = Some ("a", Some 2)) by reflexivity.
  assert (H3 : [None] !! 0 = Some (@None nat)) by reflexivity.
  assert (H4 : ("a", Some 2).2 = Some 2) by reflexivity.
  assert (H5 : fill_defaults_loop sample_evaluate [] None true (take 0 params_a_default) 0
                 [None] ∅ s0 = (Ok ∅, s0)) by reflexivity.
  destruct (parse_function_call_no_body_ctx nat unit unit unit sample_evaluate sample_host_run
              sample_call_builtin sample_native_call [] params_a_default [] true s0
              [None] 0 ("a", Some 2) 2 ∅ s0 H1 H2 H3 H4 H5) as [Hc Hn].
  repeat (split; [assumption|]).
  exact (Hn eq_refl "f" {| nc_params := params_a_default; nc_handler := tt |} false eq_refl).
Defined.

Import Sample2.

Lemma sample2_evaluate_evolves c e s r s' :
  sample2_evaluate c e s = (r, s') ->
  keeps_computed nat unit unit HostFn2 s s' /\ N.le (next_loc s) (next_loc s').
Proof.
  unfold sample2_evaluate. intros H.
  destruct e; injection H as _ <-; (split; [intros l v Hv; exact Hv|lia]).
Qed.

Lemma sample2_default_closure_run bc d :
  sample2_host_run (sample2_default_closure bc d)
  = match bc with Some c => sample2_evaluate c d | None => panic NO_DEFAULT_CONTEXT end.
Proof. destruct bc; reflexivity. Qed.

Lemma NoDup_named_a : NoDup (List.map fst named_a).
Proof. apply NoDup_cons. split; [set_solver|apply NoDup_nil_2]. Qed.

Lemma NoDup_named_b : NoDup (List.map fst named_b).
Proof. apply NoDup_cons. split; [set_solver|apply NoDup_nil_2]. Qed.

Lemma NoDup_named_c : NoDup (List.map fst named_c).
Proof. apply NoDup_cons. split; [set_solver|apply NoDup_nil_2]. Qed.

(** [place_args] at [function(a, b=2)] applied to [null], with a callee
    environment: [b] takes its default, evaluated in the caller's context. *)
Lemma place_args_binds_witness :
  exists c s',
    place_args sample_evaluate [] (Some [{[ "z" := 7%N ]}]) params_ab vals_null s0 = (Ok c, s') /\
    NoDup (List.map fst params_ab) /\
    exists out, c = Context_extend (default [] (Some [{[ "z" := 7%N ]}])) out /\
      forall i p, params_ab !! i = Some p ->
        exists l (v : Val nat unit unit), out !! p.1 = Some l /\ heap s' !! l = Some (Computed v) /\
          (vals_null !! i = Some v \/
           (vals_null !! i = None /\
            exists d s1 s2, p.2 = Some d /\ sample_evaluate [] d s1 = (Ok v, s2))).
Proof.
  destruct (place_args sample_evaluate [] (Some [{[ "z" := 7%N ]}]) params_ab vals_null s0)
    as [[c|e|q] s'] eqn:H; [|vm_compute in H; discriminate H|vm_compute in H; discriminate H].
  exists c, s'. split; [reflexivity|]. split; [exact NoDup_params_ab|].
  exact (place_args_binds nat unit unit unit sample_evaluate sample_evaluate_evolves
           [] (Some [{[ "z" := 7%N ]}]) params_ab vals_null s0 c s' H NoDup_params_ab).
Defined.

(** The placement of [{c: null}] for [function(a, b=2)]: [c] is unknown. *)
Lemma place_map_loop_errors_witness :
  NoDup (List.map fst named_c) /\
  match place_map_loop params_ab named_c (replicate (List.length params_ab) None) with
  | Ok _ => forall name, In name (List.map fst named_c) -> In name (List.map fst params_ab)
  | Err e => exists name, e = UnknownFunctionParameter name /\ In name (List.map fst named_c) /\
                          ~ In name (List.map fst params_ab)
  | Panic _ => False
  end.
Proof.
  split; [exact NoDup_named_c|].
  exact (place_map_loop_errors nat unit unit params_ab named_c NoDup_named_c).
Defined.

(** [parse_function_call_map] at [function(a, b=2)] with [{a: null}], a
    callee environment and no tail-strictness. *)
Lemma parse_function_call_map_binds_witness :
  exists c s',
    parse_function_call_map sample2_evaluate sample2_default_closure [] (Some [{[ "z" := 7%N ]}])
      params_ab named_a false s2_0 = (Ok c, s') /\
    NoDup (List.map fst params_ab) /\ NoDup (List.map fst named_a) /\
    exists out, c = Context_extend (default [] (Some [{[ "z" := 7%N ]}])) out /\
      forall i p, params_ab !! i = Some p ->
        exists l, out !! p.1 = Some l /\
          map_bound nat unit unit HostFn2 sample2_evaluate sample2_default_closure
            (Some [{[ "z" := 7%N ]}]) false (arg_lookup nat unit unit named_a p.1) p l s'.
Proof.
  destruct (parse_function_call_map sample2_evaluate sample2_default_closure []
              (Some [{[ "z" := 7%N ]}]) params_ab named_a false s2_0)
    as [[c|e|q] s'] eqn:H; [|vm_compute in H; discriminate H|vm_compute in H; discriminate H].
  exists c, s'. split; [reflexivity|]. split; [exact NoDup_params_ab|]. split; [exact NoDup_named_a|].
  exact (parse_function_call_map_binds nat unit unit HostFn2 sample2_evaluate
           sample2_evaluate_evolves sample2_default_closure [] (Some [{[ "z" := 7%N ]}])
           params_ab named_a false s2_0 c s' H NoDup_params_ab NoDup_named_a).
Defined.

(** The default of [b] in [function(a, b=2)], called with [{a: null}] and no
    callee environment: the call succeeds, and the thunk of [b] panics when
    forced. *)
Lemma parse_function_call_map_deferred_panic_witness :
  NoDup (List.map fst params_ab) /\ NoDup (List.map fst named_a) /\
  (forall name, In name (List.map fst named_a) -> In name (List.map fst params_ab)) /\
  (forall i p, params_ab !! i = Some p -> arg_lookup nat unit unit named_a p.1 = None -> p.2 <> None) /\
  exists c s',
    parse_function_call_map sample2_evaluate sample2_default_closure [] None
      params_ab named_a false s2_0 = (Ok c, s') /\
    forall i p, params_ab !! i = Some p -> arg_lookup nat unit unit named_a p.1 = None ->
      exists l, Context_binding c p.1 = Ok l /\
        LazyVal_evaluate sample2_evaluate sample2_host_run l s' = (Panic NO_DEFAULT_CONTEXT, s').
Proof.
  assert (Hk : forall name, In name (List.map fst named_a) -> In name (List.map fst params_ab))
    by (simpl; tauto).
  assert (Hd : forall i p, params_ab !! i = Some p ->
                 arg_lookup nat unit unit named_a p.1 = None -> p.2 <> None).
  { intros i p Hp Hn. destruct i as [|[|i]]; simpl in Hp.
    - injection Hp as <-. simpl in Hn. discriminate Hn.
    - injection Hp as <-. discriminate.
    - discriminate Hp. }
  split; [exact NoDup_params_ab|]. split; [exact NoDup_named_a|]. split; [exact Hk|].
  split; [exact Hd|].
  exact (parse_function_call_map_deferred_panic nat unit unit HostFn2 sample2_evaluate
           sample2_host_run sample2_evaluate_evolves sample2_default_closure
           sample2_default_closure_run [] params_ab named_a s2_0
           NoDup_params_ab NoDup_named_a Hk Hd).
Defined.

(** [function(a, b=2)] called with [{b: null}]: [a] is missing and has no
    default. *)
Lemma parse_function_call_map_missing_witness :
  NoDup (List.map fst params_ab) /\ NoDup (List.map fst named_b) /\
  (forall name, In name (List.map fst named_b) -> In name (List.map fst params_ab)) /\
  (forall k q, k < 0 -> params_ab !! k = Some q -> arg_lookup nat unit unit named_b q.1 <> None) /\
  params_ab !! 0 = Some ("a", None) /\ arg_lookup nat unit unit named_b "a" = None /\
  ((@None nat = None -> exists s',
      parse_function_call_map sample2_evaluate sample2_default_closure [] None params_ab named_b true s2_0
      = (Err (FunctionParameterNotBoundInCall "a"), s')) /\
   (forall d, @None nat = Some d -> true = true -> @None Context = None -> exists s',
      parse_function_call_map sample2_evaluate sample2_default_closure [] None params_ab named_b true s2_0
      = (Panic NO_DEFAULT_CONTEXT, s'))).
Proof.
  assert (Hk : forall name, In name (List.map fst named_b) -> In name (List.map fst params_ab))
    by (simpl; tauto).
  assert (Hpre : forall k q, k < 0 -> params_ab !! k = Some q ->
                   arg_lookup nat unit unit named_b q.1 <> None) by (intros; lia).
  assert (Hp : params_ab !! 0 = Some ("a", None)) by reflexivity.
  assert (Hn : arg_lookup nat unit unit named_b "a" = None) by reflexivity.
  split; [exact NoDup_params_ab|]. split; [exact NoDup_named_b|]. split; [exact Hk|].
  split; [exact Hpre|]. split; [exact Hp|]. split; [exact Hn|].
  exact (parse_function_call_map_missing nat unit unit HostFn2 sample2_evaluate
           sample2_default_closure [] None params_ab named_b true s2_0 0 ("a", None)
           NoDup_params_ab NoDup_named_b Hk Hpre Hp Hn).
Defined.

(** The native extension [handler_ab] applied to [3] and [1]. *)
Lemma FuncVal_evaluate_native_witness :
  exists c s1,
    parse_function_call sample_evaluate [] None (nc_params handler_ab) args_two true s0 = (Ok c, s1) /\
    NoDup (List.map fst (nc_params handler_ab)) /\
    exists vs, List.length vs = List.length (nc_params handler_ab) /\
      (forall i p, nc_params handler_ab !! i = Some p ->
         exists l v, Context_binding c p.1 = Ok l /\ heap s1 !! l = Some (Computed v) /\
                     vs !! i = Some v) /\
      FuncVal_evaluate sample_evaluate sample_host_run sample_call_builtin sample_native_call
        (NativeExt "f" handler_ab) [] args_two false s0 = sample_native_call (nc_handler handler_ab) vs s1.
Proof.
  destruct (parse_function_call sample_evaluate [] None (nc_params handler_ab) args_two true s0)
    as [[c|e|q] s1] eqn:H; [|vm_compute in H; discriminate H|vm_compute in H; discriminate H].
  exists c, s1. split; [reflexivity|]. split; [exact NoDup_params_ab|].
  exact (FuncVal_evaluate_native nat unit unit unit sample_evaluate sample_host_run
           sample_call_builtin sample_native_call sample_evaluate_evolves "f" handler_ab []
           args_two false s0 c s1 H NoDup_params_ab).
Defined.

(** [manifest] of the array [[null]] under [YamlStream (Json 0)]. *)
Lemma manifest_yaml_stream_via_stream_witness :
  nests_in_stream (ManifestFormat.Json 0) = true /\
  manifest sample_evaluate sample_host_run sample_manifest_json_ex sample_to_yaml
    (Arr (Eager [Null])) (ManifestFormat.YamlStream (ManifestFormat.Json 0)) s0
  = match Val_manifest_stream sample_evaluate sample_host_run sample_manifest_json_ex sample_to_yaml
            (Arr (Eager [Null])) (ManifestFormat.Json 0) s0 with
    | (Ok ms, s') => (Ok (yaml_stream_text ms), s')
    | (Err e, s') => (Err e, s')
    | (Panic p, s') => (Panic p, s')
    end.
Proof.
  split; [reflexivity|].
  exact (manifest_yaml_stream_via_stream nat unit unit unit sample_evaluate sample_host_run
           sample_manifest_json_ex sample_to_yaml (ManifestFormat.Json 0) (Arr (Eager [Null])) s0
           eq_refl).
Defined.
